(** * zwad.aad: the active anomaly detection loop

    A shallow embedding of [src/zwad/aad.py]: the result sink
    ([ResultsSink]), the seeding of the detector with prior answers
    ([ConiferestEngine._handle_initial_knowns]) and the two execution modes
    of [ConiferestEngine.run].

    The anomaly detector (coniferest), the expert at the terminal (click)
    and NumPy's [argsort] are collaborators of the module, not part of it:
    each is an interface below, and every call to the detector and to the
    expert is written to a trace, so that the order and the number of the
    calls can be stated.  For runs on concrete scores the sort NumPy uses
    by default is written out as well ([NpySort]). *)

From stdpp Require Import base option list gmap strings numbers pretty sorting.

Set Warnings "-register-all,-clear-no-such-hyp".
Open Scope Z_scope.

(** ** Python values the module handles *)

(** [coniferest.datasets.Label], as far as the module uses it. *)
Inductive Label := ANOMALY | REGULAR.

Global Instance Label_eq_dec : EqDecision Label.
Proof. solve_decision. Defined.

(** The exceptions that can travel through the module. *)
Inductive exn :=
| StopIteration
| RuntimeError
| IndexError
| AttributeError
| ValueError
| OSError.

Global Instance exn_eq_dec : EqDecision exn.
Proof. solve_decision. Defined.

(** ** The part of NumPy that line 94 exercises

    (An object identifier is a [np.uint64], here an [N]; what the engine
    yields is a pair [(a_oid, decision) : N * bool].)

    [known_labels[np.asarray(answers.values()) == 0] = Label.REGULAR]

    [answers.values()] is a dictionary view.  A view is no sequence (it has
    no [__getitem__]), so [np.asarray] wraps it whole in a 0-dimensional
    object array; a list would become a 1-dimensional array. *)
Inductive pyobj :=
| PyBool (b : bool)
| PyInt (z : Z)
| PyDictValues (vs : list bool)
| PyList (l : list bool).

Inductive ndarray (A : Type) :=
| Arr0 (x : A)
| Arr1 (xs : list A).
Arguments Arr0 {A} x.
Arguments Arr1 {A} xs.

Definition np_asarray (o : pyobj) : ndarray pyobj :=
  match o with
  | PyList l => Arr1 (PyBool <$> l)
  | _ => Arr0 o
  end.

(** Python's [o == 0].  [bool] is a subclass of [int]; a dictionary view
    and a list compare unequal to every number. *)
Definition py_eq_zero (o : pyobj) : bool :=
  match o with
  | PyBool b => negb b
  | PyInt z => z =? 0
  | PyDictValues _ => false
  | PyList _ => false
  end.

(** [arr == 0] on an object array compares element by element. *)
Definition np_eq_zero (a : ndarray pyobj) : ndarray bool :=
  match a with
  | Arr0 x => Arr0 (py_eq_zero x)
  | Arr1 xs => Arr1 (py_eq_zero <$> xs)
  end.

(** [arr[mask] = v] for a one-dimensional [arr].  A 0-dimensional boolean
    mask selects the whole array or nothing; a 1-dimensional one must have
    the length of [arr]. *)
Definition np_setitem_mask {A} (arr : list A) (mask : ndarray bool) (v : A)
  : exn + list A :=
  match mask with
  | Arr0 true => inr (const v <$> arr)
  | Arr0 false => inr arr
  | Arr1 bs =>
      if decide (length bs = length arr)
      then inr (zip_with (λ b x, if b : bool then v else x) bs arr)
      else inl IndexError
  end.

(** [np.where(mask)[0]]: the positions of the true entries, ascending. *)
Fixpoint np_where_from (i : nat) (mask : list bool) : list nat :=
  match mask with
  | [] => []
  | b :: mask' =>
      if b then i :: np_where_from (S i) mask' else np_where_from (S i) mask'
  end.
Definition np_where (mask : list bool) : list nat := np_where_from 0 mask.

(** [np.isin(oid, list(answers.keys()))], line 91.

    [oid] holds [np.uint64].  The keys are Python integers below [2**64]
    (that is what [load_answers] puts into the dictionary), and NumPy makes
    of their list an array of [int64] when every key is below [2**63], of
    [uint64] when none is, and of [float64] when some are and some are
    not.  Against an array of [float64] the identifiers are compared as
    [float64]: two integers that round to the same [float64] are equal
    there. *)
Inductive dtype := int64 | uint64 | float64.

Definition two63 : N := 9223372036854775808.

(** The integers that every [float64] comparison tells apart: those below
    [2**53]. *)
Definition two53 : N := 9007199254740992.

Definition keys_dtype (keys : list N) : dtype :=
  if bool_decide (Forall (λ k, (k < two63)%N) keys) then int64
  else if bool_decide (Forall (λ k, (two63 ≤ k)%N) keys) then uint64
  else float64.

(** The [float64] nearest to a natural number, as a natural number: 53
    significant bits are kept, and a number half way between two
    neighbours goes to the even one. *)
Definition float64_of_N (n : N) : N :=
  let e := (N.size n - 53)%N in
  if bool_decide (e = 0%N) then n else
  let q := N.shiftr n e in
  let r := N.land n (N.ones e) in
  let half := N.shiftl 1 (e - 1) in
  if bool_decide (half < r)%N || (bool_decide (r = half) && N.odd q)
  then N.shiftl (q + 1) e
  else N.shiftl q e.

Definition np_isin (oid : list N) (keys : list N) : list bool :=
  match keys_dtype keys with
  | float64 =>
      (λ o, bool_decide (float64_of_N o ∈ float64_of_N <$> keys)) <$> oid
  | _ => (λ o, bool_decide (o ∈ keys)) <$> oid
  end.

(** [arr[indices]]: every index must be in range. *)
Definition np_take {A} (arr : list A) (indices : list nat) : exn + list A :=
  match mapM (λ i, arr !! i) indices with
  | Some xs => inr xs
  | None => inl IndexError
  end.

(** [range(n)] for a Python integer [n]: empty when [n] is negative. *)
Definition range (n : Z) : list nat := seq 0 (Z.to_nat n).

(** [len(x)] as a Python integer. *)
Definition len {A} (l : list A) : Z := Z.of_nat (length l).

(** ** Computations that may raise

    A Python method reads and updates some state (an object, the outside
    world) and returns a value or raises. *)
Definition Py (S A : Type) : Type := S → (exn + A) * S.

Global Instance Py_ret {S} : MRet (Py S) := λ A x s, (inr x, s).
Global Instance Py_bind {S} : MBind (Py S) := λ A B k m s,
  match m s with
  | (inr x, s') => k x s'
  | (inl e, s') => (inl e, s')
  end.
Definition raise {S A} (e : exn) : Py S A := λ s, (inl e, s).
Definition lift {S A} (r : exn + A) : Py S A := λ s, (r, s).

(** ** What [np.argsort] promises

    The positions of [scores] in an order along which the scores do not
    decrease.  The default [kind] of [np.argsort] promises nothing about the
    order of positions that hold equal scores. *)
Section Argsort.
Context {score : Type} (le : relation score).

Definition ascending (scores : list score) (idx : list nat) : Prop :=
  ∀ i j a b sa sb, (i ≤ j)%nat →
    idx !! i = Some a → idx !! j = Some b →
    scores !! a = Some sa → scores !! b = Some sb → le sa sb.

Definition is_argsort (scores : list score) (idx : list nat) : Prop :=
  idx ≡ₚ seq 0 (length scores) ∧ ascending scores idx.

(** Stability: positions that hold equal scores come in their original
    order. *)
Definition ties_in_row_order (scores : list score) (idx : list nat) : Prop :=
  ∀ i j a b s, (i < j)%nat →
    idx !! i = Some a → idx !! j = Some b →
    scores !! a = Some s → scores !! b = Some s → (a < b)%nat.

End Argsort.

(** ** The collaborators and the trace of calls to them *)

(** [AADForestAnomalyDetector] and [PineForestAnomalyDetector] expose
    [train], [score] and [observe]; [train] and [observe] update the
    detector in place, here they return its new state.  A [row] is a row of
    the feature matrix. *)
Class AnomalyDetector (row score detector : Type) := {
  detector_train : detector → list row → detector;
  detector_score : detector → list row → list score;
  detector_observe : detector → list row → list Label → detector
}.

(** [click.confirm]: the expert's answer to one question. *)
Class Expert (expert : Type) := {
  expert_confirm : expert → N → bool * expert
}.

(** [np.argsort] with its default [kind]. *)
Class Argsort (score : Type) := {
  argsort : list score → list nat
}.

Section Engine.

Context {row score detector expert : Type}.
Context `{!AnomalyDetector row score detector, !Expert expert, !Argsort score}.

Inductive event :=
| ETrain (feature : list row)
| EScore (feature : list row)
| EObserve (data : list row) (labels : list Label)
| EConfirm (name : N).

Record world := World {
  w_detector : detector;
  w_expert : expert;
  w_trace : list event
}.

(** Computations of the engine act on the world. *)
#[local] Abbreviation M := (Py world).

Definition log (e : event) (w : world) : list event := w_trace w ++ [e].

Definition call_train (feature : list row) : M unit := λ w,
  (inr (), World (detector_train (w_detector w) feature) (w_expert w)
             (log (ETrain feature) w)).

Definition call_score (feature : list row) : M (list score) := λ w,
  (inr (detector_score (w_detector w) feature),
   World (w_detector w) (w_expert w) (log (EScore feature) w)).

Definition call_observe (data : list row) (labels : list Label) : M unit :=
  λ w, (inr (), World (detector_observe (w_detector w) data labels)
                  (w_expert w) (log (EObserve data labels) w)).

Definition call_confirm (name : N) : M bool := λ w,
  let '(result, e') := expert_confirm (w_expert w) name in
  (inr result, World (w_detector w) e' (log (EConfirm name) w)).

(** [seq[i]] for a non-negative [i]. *)
Definition getitem {A} (l : list A) (i : nat) : M A :=
  match l !! i with
  | Some x => mret x
  | None => raise IndexError
  end.

(** ** Generators

    A generator is a suspended computation: nothing of its body runs until
    [next] is called.  [next] either raises, or ends the iteration ([None]),
    or yields a value together with the rest of the generator. *)
Inductive gen (A : Type) :=
| Gen (next : world → (exn + option (A * gen A)) * world).
Arguments Gen {A} next.

Definition next {A} (g : gen A) : M (option (A * gen A)) :=
  match g with Gen f => f end.

(** PEP 479: a [StopIteration] that escapes the body of a generator is
    replaced by a [RuntimeError]; other exceptions pass unchanged. *)
Definition pep479 (e : exn) : exn :=
  match e with
  | StopIteration => RuntimeError
  | _ => e
  end.

Definition gen_body {A} (m : M (option (A * gen A))) : gen A :=
  Gen (λ w, match m w with
            | (inl e, w') => (inl (pep479 e), w')
            | r => r
            end).

(** [for x in g: out.append(x)]: the values yielded until the generator
    ends or raises. *)
Inductive outcome := Finished | Raised (e : exn).

Fixpoint consume {A} (g : gen A) (w : world) : list A * outcome * world :=
  match g with
  | Gen f =>
      match f w with
      | (inl e, w') => ([], Raised e, w')
      | (inr None, w') => ([], Finished, w')
      | (inr (Some (x, g')), w') =>
          let '(xs, o, w'') := consume g' w' in (x :: xs, o, w'')
      end
  end.

(** ** ConiferestEngine *)

(** [self._budget] and [self._non_interactive]; [self._anomaly_detector]
    is the detector of the world.  [self._browser] only decides how
    [_evaluate] shows the object to the expert. *)
Record engine := Engine {
  _budget : Z;
  _non_interactive : bool
}.

(** [_handle_initial_knowns], lines 87-98.  [answers] is [None] or a
    dictionary from object identifiers to booleans. *)
Definition _handle_initial_knowns (oid : list N) (feature : list row)
    (answers : option (gmap N bool)) : M (gmap nat Label) :=
  match answers with
  | None => mret ∅
  | Some answers =>
      if decide (size answers = 0%nat) then mret ∅ else
      let known_indices := np_where (np_isin oid (map_to_list answers).*1) in
      known_data ← lift (np_take feature known_indices);
      let known_labels := replicate (length known_data) ANOMALY in
      known_labels ← lift (np_setitem_mask known_labels
        (np_eq_zero (np_asarray (PyDictValues (map_to_list answers).*2)))
        REGULAR);
      call_observe known_data known_labels;;
      mret (list_to_map (zip known_indices known_labels))
  end.

(** [_evaluate], lines 100-110. *)
Definition _evaluate (name : N) : M (bool * Label) :=
  result ← call_confirm name;
  let label := if result : bool then ANOMALY else REGULAR in
  mret (result, label).

(** [next(filter(pred, xs))]: the first element that passes, or
    [StopIteration]. *)
Definition next_filter {A} (pred : A → bool) (xs : list A) : M A :=
  match filter (λ x, pred x = true) xs with
  | x :: _ => mret x
  | [] => raise StopIteration
  end.

(** The body of the loop of [_run_interactive], lines 116-126: what it
    yields, the row it asked about and [known] after the update. *)
Definition interactive_iteration (oid : list N) (feature : list row)
    (known : gmap nat Label) : M ((N * bool) * nat * gmap nat Label) :=
  scores ← call_score feature;
  let scores_idx := argsort scores in
  a ← next_filter (λ idx, bool_decide (known !! idx = None)) scores_idx;
  a_oid ← getitem oid a;
  '(result, label) ← _evaluate a_oid;
  r ← getitem feature a;
  call_observe [r] [label];;
  let known := <[a := label]> known in
  mret ((a_oid, result), a, known).

Fixpoint interactive_loop (rng : list nat) (oid : list N)
    (feature : list row) (known : gmap nat Label) : gen (N * bool) :=
  gen_body (
    match rng with
    | [] => mret None
    | _ :: rng' =>
        '(rec, _, known') ← interactive_iteration oid feature known;
        mret (Some (rec, interactive_loop rng' oid feature known'))
    end).

(** [_run_interactive], lines 112-126. *)
Definition _run_interactive (self : engine) (oid : list N)
    (feature : list row) (known : gmap nat Label) : gen (N * bool) :=
  gen_body (
    let budget := Z.min (_budget self) (len feature) in
    next (interactive_loop (range budget) oid feature known)).

Fixpoint non_interactive_loop (rng : list nat) (oid : list N)
    (scores_idx : list nat) : gen (N * bool) :=
  gen_body (
    match rng with
    | [] => mret None
    | i :: rng' =>
        a ← getitem scores_idx i;
        a_oid ← getitem oid a;
        mret (Some ((a_oid, true), non_interactive_loop rng' oid scores_idx))
    end).

(** [_run_non_interactive], lines 128-137. *)
Definition _run_non_interactive (self : engine) (oid : list N)
    (feature : list row) : gen (N * bool) :=
  gen_body (
    let budget := Z.min (_budget self) (len feature) in
    scores ← call_score feature;
    let scores_idx := argsort scores in
    next (non_interactive_loop (range budget) oid scores_idx)).

(** [run], lines 139-147.  [run] is an ordinary method: its body runs at
    the call, and what it returns is the generator made by one of the two
    generator functions. *)
Definition run (self : engine) (oid : list N) (feature : list row)
    (answers : option (gmap N bool)) : M (gen (N * bool)) :=
  call_train feature;;
  known ← _handle_initial_knowns oid feature answers;
  if _non_interactive self
  then mret (_run_non_interactive self oid feature)
  else mret (_run_interactive self oid feature known).

(** The iterations of [_run_interactive] written out: for every completed
    iteration what it yielded, the row it asked about and [known] after it,
    then how the loop ended. *)
Fixpoint interactive_steps (rng : list nat) (oid : list N)
    (feature : list row) (known : gmap nat Label) (w : world)
  : list ((N * bool) * nat * gmap nat Label) * outcome * world :=
  match rng with
  | [] => ([], Finished, w)
  | _ :: rng' =>
      match interactive_iteration oid feature known w with
      | (inl e, w') => ([], Raised (pep479 e), w')
      | (inr (rec, a, known'), w') =>
          let '(steps, o, w'') :=
            interactive_steps rng' oid feature known' w' in
          ((rec, a, known') :: steps, o, w'')
      end
  end.

(** Every completed iteration asked about a row that was not in [known]
    and added that row, and nothing else, to [known]. *)
Fixpoint each_step_adds_one (oid : list N) (known : gmap nat Label)
    (steps : list ((N * bool) * nat * gmap nat Label)) : Prop :=
  match steps with
  | [] => True
  | (rec, a, known') :: steps' =>
      known !! a = None ∧
      oid !! a = Some rec.1 ∧
      known' = <[a := if rec.2 then ANOMALY else REGULAR]> known ∧
      size known' = S (size known) ∧
      (∀ i l, known !! i = Some l → known' !! i = Some l) ∧
      each_step_adds_one oid known' steps'
  end.

(** What the engine relies on: the detector gives one score for each row,
    and [np.argsort] gives the positions of the scores, in ascending order
    of the scores. *)
Definition scores_every_row : Prop :=
  ∀ d (feature : list row), length (detector_score d feature) = length feature.

Definition argsort_permutes : Prop :=
  ∀ scores : list score, argsort scores ≡ₚ seq 0 (length scores).

Definition argsort_ascending (le : relation score) : Prop :=
  ∀ scores : list score, ascending le scores (argsort scores).

End Engine.

(** The rows that line 91 locates. *)
Definition located (oid : list N) (answers : gmap N bool) : list nat :=
  np_where (np_isin oid (map_to_list answers).*1).

(** The label the specification gives to the row [i]: REGULAR when the
    answer recorded for its identifier is false, ANOMALY when it is true. *)
Definition label_of_answer (is_anomaly : bool) : Label :=
  if is_anomaly then ANOMALY else REGULAR.

Definition resolved_label (oid : list N) (answers : gmap N bool) (i : nat)
  : option Label :=
  o ← oid !! i; label_of_answer <$> answers !! o.

(** ** ResultsSink *)

Module ResultsSink.

(** A text file opened for writing.  [f_disk] is what a reader of the file
    sees, [f_buffer] what was written and not flushed yet, [f_ops] the
    calls made on the object. *)
Inductive file_op :=
| OpWrite (s : string)
| OpFlush
| OpClose.

Record file := File {
  f_name : string;
  f_disk : string;
  f_buffer : string;
  f_closed : bool;
  f_ops : list file_op
}.

(** What the file system lets the process do: the names [open] accepts,
    the targets that take the data sent to them, and the targets that are
    terminals.  [open] without a [buffering] argument buffers by lines when
    the target is a terminal and by blocks otherwise. *)
Record io_env := IoEnv {
  can_open : string → bool;
  can_write : string → bool;
  line_buffered : string → bool
}.

Definition nl : string := String (Ascii.ascii_of_nat 10) "".

Fixpoint has_newline (s : string) : bool :=
  match s with
  | "" => false
  | String c s' => bool_decide (c = Ascii.ascii_of_nat 10) || has_newline s'
  end.

(** [open(name, mode="w", encoding="utf-8")]: a new, truncated file. *)
Definition open_ (env : io_env) (name : string) : exn + file :=
  if can_open env name then inr (File name "" "" false []) else inl OSError.

(** [f.write(s)].  The text goes to the buffer and the call returns.  Only
    on a line-buffered file, and for a text that holds a newline, does the
    buffer go on to the target at once; when the target refuses it the call
    raises and the text stays in the buffer.  (Every text the module writes
    is one short line, far less than a block.) *)
Definition file_write (env : io_env) (s : string) : Py file unit := λ f,
  if f_closed f then (inl ValueError, f) else
  let buffered := File (f_name f) (f_disk f) (f_buffer f +:+ s) false
                    (f_ops f ++ [OpWrite s]) in
  if line_buffered env (f_name f) && has_newline s then
    if can_write env (f_name f)
    then (inr (), File (f_name f) (f_disk f +:+ f_buffer f +:+ s) "" false
                    (f_ops f ++ [OpWrite s]))
    else (inl OSError, buffered)
  else (inr (), buffered).

(** [f.flush()]: the buffer goes to the target.  When the target refuses
    it the call raises and the buffer stays as it is; an empty buffer is
    sent nowhere. *)
Definition file_flush (env : io_env) : Py file unit := λ f,
  if f_closed f then (inl ValueError, f) else
  if can_write env (f_name f) || bool_decide (f_buffer f = "")
  then (inr (), File (f_name f) (f_disk f +:+ f_buffer f) "" false
                  (f_ops f ++ [OpFlush]))
  else (inl OSError, File (f_name f) (f_disk f) (f_buffer f) false
                       (f_ops f ++ [OpFlush])).

(** [f.close()] flushes first.  When the target refuses the buffer the
    call raises, the file is closed all the same and what was in the buffer
    is lost.  Closing a closed file does nothing. *)
Definition file_close (env : io_env) : Py file unit := λ f,
  if f_closed f then (inr (), f) else
  if can_write env (f_name f) || bool_decide (f_buffer f = "")
  then (inr (), File (f_name f) (f_disk f +:+ f_buffer f) "" true
                  (f_ops f ++ [OpClose]))
  else (inl OSError, File (f_name f) (f_disk f) "" true
                       (f_ops f ++ [OpClose])).

(** The attributes of the object. *)
Record sink := Sink {
  _anomalies : option file;
  _answers : option file
}.

(** [self._anomalies.method(...)]: [None] has no methods.  The file keeps
    what the method did to it, also when the method raises. *)
Definition on_anomalies (method : Py file unit) : Py sink unit := λ self,
  match _anomalies self with
  | None => (inl AttributeError, self)
  | Some f => ((method f).1, Sink (Some (method f).2) (_answers self))
  end.

Definition on_answers (method : Py file unit) : Py sink unit := λ self,
  match _answers self with
  | None => (inl AttributeError, self)
  | Some f => ((method f).1, Sink (_anomalies self) (Some (method f).2))
  end.

(** [if self._anomalies is not None: body] and
    [if self._answers is not None: body]. *)
Definition if_anomalies (body : Py sink unit) : Py sink unit := λ self,
  match _anomalies self with
  | Some _ => body self
  | None => (inr (), self)
  end.

Definition if_answers (body : Py sink unit) : Py sink unit := λ self,
  match _answers self with
  | Some _ => body self
  | None => (inr (), self)
  end.

(** [_cleanup], lines 32-36.  When the first [close] raises, the second
    file is not closed. *)
Definition _cleanup (env : io_env) : Py sink unit :=
  if_anomalies (on_anomalies (file_close env));;
  if_answers (on_answers (file_close env)).

(** [self._anomalies = f] and [self._answers = f]. *)
Definition set_anomalies (f : option file) : Py sink unit := λ self,
  (inr (), Sink f (_answers self)).
Definition set_answers (f : option file) : Py sink unit := λ self,
  (inr (), Sink (_anomalies self) f).

(** The first line of the answers file. *)
Definition header : string := "oid,is_anomaly" +:+ nl.

(** The [try] block of [__init__], lines 24-28.  An assignment whose right
    side raises does not happen. *)
Definition init_try (env : io_env) (anomalies_filename : string)
    (answers_filename : option string) : Py sink unit :=
  f ← lift (open_ env anomalies_filename);
  set_anomalies (Some f);;
  a ← match answers_filename with
      | Some name => f ← lift (open_ env name); mret (Some f)
      | None => mret None
      end;
  set_answers a;;
  if_answers (on_answers (file_write env header)).

(** [__init__], lines 19-30: the object it leaves, or the exception that
    leaves it.  The bare [except] catches whatever the [try] block raised;
    what [_cleanup] raises in the handler leaves the constructor. *)
Definition __init__ (env : io_env) (anomalies_filename : string)
    (answers_filename : option string) : exn + sink :=
  let self := Sink None None in
  match init_try env anomalies_filename answers_filename self with
  | (inr _, self) => inr self
  | (inl _, self) =>
      match _cleanup env self with
      | (inr _, self) => inr self
      | (inl e, _) => inl e
      end
  end.

(** [_handle_anomaly], lines 38-43. *)
Definition _handle_anomaly (env : io_env) (name : N) (decision : bool)
  : Py sink unit :=
  if negb decision then mret () else
  on_anomalies (file_write env (pretty name +:+ nl));;
  on_anomalies (file_flush env).

(** [_handle_answer], lines 45-50.  [{:b}] prints a boolean as [0] or [1]. *)
Definition _handle_answer (env : io_env) (name : N) (decision : bool)
  : Py sink unit :=
  if_answers (
    on_answers (file_write env
      (pretty name +:+ "," +:+ (if decision then "1" else "0") +:+ nl));;
    on_answers (file_flush env)).

(** [__call__], lines 52-54. *)
Definition __call__ (env : io_env) (name : N) (decision : bool)
  : Py sink unit :=
  _handle_anomaly env name decision;;
  _handle_answer env name decision.

(** [__exit__], lines 59-62. *)
Definition __exit__ (env : io_env) : Py sink bool :=
  _cleanup env;; mret false.

(** A file after [write(s)] and [flush()]. *)
Definition written_and_flushed (s : string) (f : file) : file :=
  File (f_name f) (f_disk f +:+ f_buffer f +:+ s) "" (f_closed f)
    (f_ops f ++ [OpWrite s; OpFlush]).

(** A file that is open and can be written to. *)
Definition usable (env : io_env) (f : file) : Prop :=
  f_closed f = false ∧ can_write env (f_name f) = true.

(** A file whose [close] has nothing to send to a target that refuses
    it. *)
Definition closes_cleanly (env : io_env) (f : file) : Prop :=
  f_closed f = true ∨ can_write env (f_name f) = true ∨ f_buffer f = "".

(** A file after a [close] that raised: closed, the buffer lost. *)
Definition closed_with_loss (f : file) : file :=
  File (f_name f) (f_disk f) "" true (f_ops f ++ [OpClose]).

(** A file that was opened and then closed by [_cleanup], nothing written. *)
Definition opened_and_closed (name : string) : file :=
  File name "" "" true [OpClose].

End ResultsSink.

(** ** NumPy's default sort

    [np.argsort(scores)] with the default [kind] fills an array with the
    positions [0 .. n-1] and sorts it with the introsort of NumPy's
    [npysort/quicksort.cpp] ([aquicksort], the routine for element types and
    processors without a vectorised sort): partitions around the median of
    three down to segments of at most 16 positions, an insertion sort on
    each such segment, and a heap sort on a segment reached after more than
    [2 * floor(log2 n)] partitions.  Only positions are moved; two scores
    are compared with [<] and nothing else. *)
Module NpySort.
Section Sort.

Variable v : list Z.

(** [Tag::less(a, b)]. *)
Definition less (a b : Z) : bool := a <? b.

(** [v[x]] and [v[*p]] for a pointer [p] into [tosort], here a position
    of the list. *)
Definition value (x : nat) : Z := default 0 (v !! x).
Definition value_at (tosort : list nat) (p : nat) : Z :=
  value (default 0%nat (tosort !! p)).

(** [INTP_SWAP] on the positions [p] and [q]. *)
Definition INTP_SWAP (tosort : list nat) (p q : nat) : list nat :=
  match tosort !! p, tosort !! q with
  | Some a, Some b => <[q := a]> (<[p := b]> tosort)
  | _, _ => tosort
  end.

(** [do { ++pi; } while (less(v[*pi], vp));] after its first [++pi], and
    [do { --pj; } while (less(vp, v[*pj]));] after its first [--pj].  Both
    stop inside the segment, at the latest on the median and on the pivot
    that [partition] has put at its ends. *)
Fixpoint scan_right (fuel : nat) (tosort : list nat) (vp : Z) (pi : nat) : nat :=
  match fuel with
  | O => pi
  | S fuel =>
      if less (value_at tosort pi) vp then scan_right fuel tosort vp (S pi)
      else pi
  end.

Fixpoint scan_left (fuel : nat) (tosort : list nat) (vp : Z) (pj : nat) : nat :=
  match fuel with
  | O => pj
  | S fuel =>
      if less vp (value_at tosort pj) then scan_left fuel tosort vp (pj - 1)
      else pj
  end.

(** [for (;;) { scan; scan; if (pi >= pj) break; swap; }]: what is at [pi]
    and at [pj] is exchanged also when both hold the score [vp]. *)
Fixpoint partition_loop (fuel : nat) (tosort : list nat) (vp : Z)
    (pi pj : nat) : list nat * nat :=
  match fuel with
  | O => (tosort, pi)
  | S fuel =>
      let pi := scan_right (length tosort) tosort vp (S pi) in
      let pj := scan_left (length tosort) tosort vp (pj - 1) in
      if (pj <=? pi)%nat then (tosort, pi)
      else partition_loop fuel (INTP_SWAP tosort pi pj) vp pi pj
  end.

(** One partition of the segment [pl .. pr]: the median of the first, the
    middle and the last position goes to the middle, then to [pr - 1]; the
    result is the array and the place [pi] where the pivot ends. *)
Definition partition (tosort : list nat) (pl pr : nat) : list nat * nat :=
  let pm := (pl + (pr - pl) / 2)%nat in
  let tosort := if less (value_at tosort pm) (value_at tosort pl)
                then INTP_SWAP tosort pm pl else tosort in
  let tosort := if less (value_at tosort pr) (value_at tosort pm)
                then INTP_SWAP tosort pr pm else tosort in
  let tosort := if less (value_at tosort pm) (value_at tosort pl)
                then INTP_SWAP tosort pm pl else tosort in
  let vp := value_at tosort pm in
  let tosort := INTP_SWAP tosort pm (pr - 1) in
  let '(tosort, pi) := partition_loop (length tosort) tosort vp pl (pr - 1) in
  (INTP_SWAP tosort pi (pr - 1), pi).

(** [while (pj > pl && less(vp, v[*pk])) { *pj-- = *pk--; }] with
    [pk = pj - 1]. *)
Fixpoint insert_down (fuel : nat) (tosort : list nat) (vp : Z) (pl pj : nat)
  : list nat * nat :=
  match fuel with
  | O => (tosort, pj)
  | S fuel =>
      if (pl <? pj)%nat && less vp (value_at tosort (pj - 1))
      then insert_down fuel
             (<[pj := default 0%nat (tosort !! (pj - 1)%nat)]> tosort)
             vp pl (pj - 1)
      else (tosort, pj)
  end.

(** The insertion sort of the segment [pl .. pr]: a position moves down
    only past positions that hold a greater score. *)
Definition insertion_sort (tosort : list nat) (pl pr : nat) : list nat :=
  foldl (λ tosort pi,
           let vi := default 0%nat (tosort !! pi) in
           let '(tosort, pj) := insert_down pi tosort (value vi) pl pi in
           <[pj := vi]> tosort)
    tosort (seq (S pl) (pr - pl)).

(** [aheapsort] on the [n] positions from [pl]: [a = tosort + pl - 1], so
    that [a[1]] is the first of them. *)
Definition a_get (tosort : list nat) (pl k : nat) : nat :=
  default 0%nat (tosort !! (pl + k - 1)%nat).
Definition a_set (tosort : list nat) (pl k x : nat) : list nat :=
  <[(pl + k - 1)%nat := x]> tosort.

(** The inner loop of both phases: [tmp] sinks from [i], [j] being its
    first child. *)
Fixpoint sift (fuel : nat) (tosort : list nat) (pl n tmp i j : nat) : list nat :=
  match fuel with
  | O => a_set tosort pl i tmp
  | S fuel =>
      if (j <=? n)%nat then
        let j := if (j <? n)%nat &&
                    less (value (a_get tosort pl j)) (value (a_get tosort pl (j + 1)))
                 then (j + 1)%nat else j in
        if less (value tmp) (value (a_get tosort pl j))
        then sift fuel (a_set tosort pl i (a_get tosort pl j)) pl n tmp j (j + j)
        else a_set tosort pl i tmp
      else a_set tosort pl i tmp
  end.

(** [for (; n > 1;) { tmp = a[n]; a[n] = a[1]; n -= 1; ... }]. *)
Fixpoint pop_all (fuel : nat) (tosort : list nat) (pl n : nat) : list nat :=
  match fuel with
  | O => tosort
  | S fuel =>
      if (1 <? n)%nat then
        let tmp := a_get tosort pl n in
        let tosort := a_set tosort pl n (a_get tosort pl 1) in
        let n := (n - 1)%nat in
        pop_all fuel (sift n tosort pl n tmp 1 2) pl n
      else tosort
  end.

(** [for (l = n >> 1; l > 0; --l) { ... }], then the second phase. *)
Definition aheapsort (tosort : list nat) (pl n : nat) : list nat :=
  let heap := foldl (λ tosort l, sift n tosort pl n (a_get tosort pl l) l (l + l))
                tosort (reverse (seq 1 (n / 2))) in
  pop_all n heap pl n.

Definition SMALL_QUICKSORT : nat := 15.

(** [while ((pr - pl) > SMALL_QUICKSORT) { ... }]: partition, push the
    larger part on the stack with the depth left, go on with the smaller
    one. *)
Fixpoint narrow (fuel : nat) (tosort : list nat) (pl pr : nat) (cdepth : Z)
    (stack : list (nat * nat * Z))
  : list nat * nat * nat * list (nat * nat * Z) :=
  match fuel with
  | O => (tosort, pl, pr, stack)
  | S fuel =>
      if (SMALL_QUICKSORT <? pr - pl)%nat then
        let '(tosort, pi) := partition tosort pl pr in
        let cdepth := cdepth - 1 in
        if (pi - pl <? pr - pi)%nat
        then narrow fuel tosort pl (pi - 1) cdepth ((S pi, pr, cdepth) :: stack)
        else narrow fuel tosort (S pi) pr cdepth ((pl, (pi - 1)%nat, cdepth) :: stack)
      else (tosort, pl, pr, stack)
  end.

(** The outer loop: heap sort when the depth is used up, else partitions
    and the insertion sort of what is left; then the next segment of the
    stack. *)
Fixpoint sort_loop (fuel : nat) (tosort : list nat) (pl pr : nat) (cdepth : Z)
    (stack : list (nat * nat * Z)) : list nat :=
  match fuel with
  | O => tosort
  | S fuel =>
      let '(tosort, stack) :=
        if cdepth <? 0 then (aheapsort tosort pl (pr - pl + 1), stack)
        else
          let '(tosort, pl, pr, stack) :=
            narrow (length tosort) tosort pl pr cdepth stack in
          (insertion_sort tosort pl pr, stack) in
      match stack with
      | [] => tosort
      | (pl, pr, cdepth) :: stack => sort_loop fuel tosort pl pr cdepth stack
      end
  end.

End Sort.

(** [np.argsort(v)]: the positions [0 .. num-1], sorted, with the depth
    [2 * npy_get_msb(num)]. *)
Definition aquicksort (v : list Z) : list nat :=
  let num := length v in
  sort_loop v (S num) (seq 0 num) 0 (num - 1)
    (2 * Z.log2 (Z.of_nat num)) [].

End NpySort.

(** ** Concrete collaborators

    A detector whose score of a row is the row itself (a matrix with one
    integer column) and that counts the labels it was shown, an expert who
    answers from a script, and two sorting routines: a merge sort that
    keeps equal scores in row order, and NumPy's. *)
Module Demo.

Global Instance detector : AnomalyDetector Z Z nat := {
  detector_train d feature := d;
  detector_score d feature := feature;
  detector_observe d data labels := (d + length labels)%nat
}.

Global Instance expert : Expert (list bool) := {
  expert_confirm script name :=
    match script with
    | b :: script' => (b, script')
    | [] => (false, [])
    end
}.

Definition key (scores : list Z) (i : nat) : Z := default 0 (scores !! i).

(** Smaller score first; among equal scores, the smaller position first. *)
Definition before_row_order (scores : list Z) (i j : nat) : Prop :=
  key scores i < key scores j ∨ (key scores i = key scores j ∧ (i ≤ j)%nat).

Global Instance before_row_order_dec scores : RelDecision (before_row_order scores).
Proof. intros i j. unfold before_row_order. apply _. Defined.

Definition argsort_row_order : Argsort Z := {|
  argsort scores := merge_sort (before_row_order scores) (seq 0 (length scores))
|}.

Definition argsort_numpy : Argsort Z := {|
  argsort scores := NpySort.aquicksort scores
|}.

(** The world before [run]: a fresh detector, the expert's script, no call
    made yet. *)
Definition start (script : list bool) : world (row := Z) :=
  World 0%nat script [].

(** [list(engine.run(oid, feature, answers))] with the collaborators above:
    the records, how the iteration ended and the calls made. *)
Definition run_all (sort : Argsort Z) (self : engine)
    (oid : list N) (feature : list Z) (answers : option (gmap N bool))
    (script : list bool)
  : exn + (list (N * bool) * outcome * list (event (row := Z))) :=
  match run self oid feature answers (start script) with
  | (inl e, _) => inl e
  | (inr g, w) =>
      let '(recs, o, w') := consume g w in inr (recs, o, w_trace w')
  end.

End Demo.

(** ** load_answers *)

(** [dict(zip(df["oid"], df["is_anomaly"]))]: the rows in their order, a
    later row replacing an earlier one that has the same identifier. *)
Definition dict_zip (rows : list (N * bool)) : gmap N bool :=
  foldl (λ d kv, <[kv.1 := kv.2]> d) ∅ rows.

Section LoadAnswers.

(** [pd.read_csv(filename, dtype={"oid": np.uint64, "is_anomaly": bool})]:
    the two columns, row by row, or the exception that pandas raises. *)
Variable read_csv : string → exn + list (N * bool).

(** [load_single], lines 65-68. *)
Definition load_single (filename : string) : exn + gmap N bool :=
  match read_csv filename with
  | inl e => inl e
  | inr rows => inr (dict_zip rows)
  end.

(** The loop of [load_answers], lines 71-72.  [res.update(d)] keeps the
    entries of [d] where both have a key. *)
Fixpoint load_answers_loop (res : gmap N bool) (answers : list string)
  : exn + gmap N bool :=
  match answers with
  | [] => inr res
  | f :: answers' =>
      match load_single f with
      | inl e => inl e
      | inr d => load_answers_loop (d ∪ res) answers'
      end
  end.

(** [load_answers], lines 64-74. *)
Definition load_answers (answers : list string) : exn + gmap N bool :=
  load_answers_loop ∅ answers.

End LoadAnswers.

(** The answer that the last row about [k] gives, over all rows. *)
Definition last_answer (rows : list (N * bool)) (k : N) : option bool :=
  last (filter (λ kv, kv.1 = k) rows).*2.

(** ** The command line *)

(** The namespace that [parser.parse_args(argv)] returns, as far as [main]
    reads it, for a budget that is an integer, as the default 40 is.  The
    hyperparameters of the forests only reach coniferest. *)
Record args := Args {
  arg_prior_answers : list string;
  arg_answers : option string;
  arg_anomalies : string;
  arg_oid : list string;
  arg_feature : list string;
  arg_feature_names : option string;
  arg_transform : bool;
  arg_non_interactive : bool;
  arg_budget : Z
}.

(** What can leave [main]: a [ValueError] of [parse_arguments] with its
    message, the [TypeError] of [open(None)], or an exception of the engine,
    the sink or the loaders. *)
Inductive cli_exn :=
| ArgumentError (msg : string)
| TypeError
| Propagated (e : exn).

(** The checks of [parse_arguments], lines 255-264, on the namespace. *)
Definition parse_arguments (a : args) : cli_exn + args :=
  if arg_non_interactive a && bool_decide (arg_prior_answers a = [])
  then inl (ArgumentError
    "--prior_answers must be supplied when run with --non-interactive")
  else if arg_non_interactive a && bool_decide (arg_answers a ≠ None)
  then inl (ArgumentError
    "--answers has no sense when run with --non-interactive")
  else if arg_transform a && bool_decide (arg_feature_names a = None)
  then inl (ArgumentError
    "--feature-names must be specified when --transform is enabled")
  else inr a.

(** ** main *)

(** What a sequence of records adds to the two files. *)
Fixpoint anomaly_lines (recs : list (N * bool)) : string :=
  match recs with
  | [] => ""
  | (name, decision) :: recs' =>
      (if decision then pretty name +:+ ResultsSink.nl else "")
      +:+ anomaly_lines recs'
  end.

Fixpoint answer_lines (recs : list (N * bool)) : string :=
  match recs with
  | [] => ""
  | (name, decision) :: recs' =>
      (pretty name +:+ "," +:+ (if decision then "1" else "0")
       +:+ ResultsSink.nl)
      +:+ answer_lines recs'
  end.

(** What a file holds once it is closed. *)
Definition contents (f : ResultsSink.file) : string :=
  ResultsSink.f_disk f +:+ ResultsSink.f_buffer f.

Section Main.

Context {row score detector expert : Type}.
Context `{!AnomalyDetector row score detector, !Expert expert, !Argsort score}.

#[local] Abbreviation world_ := (@world row detector expert).
#[local] Abbreviation records_ := (@gen row detector expert (N * bool)).

(** The files [main] reads, and the functions of [zwad.utils] and
    [zwad.ad.transformation] it calls. *)
Record cli_env := CliEnv {
  env_io : ResultsSink.io_env;
  env_read_csv : string → exn + list (N * bool);
  env_load_data : list string → list string → exn + (list N * list row);
  env_read_names : string → exn + list string;
  env_transform : list row → list string → exn + list row
}.

(** The loop of [main], lines 280-281: every record goes to the sink as
    soon as the generator yields it.  When the sink raises, the generator
    is not asked again. *)
Fixpoint record_each (io : ResultsSink.io_env) (g : records_)
    (w : world_) (sink : ResultsSink.sink)
  : outcome * world_ * ResultsSink.sink :=
  match g with
  | Gen _ f =>
      match f w with
      | (inl e, w') => (Raised e, w', sink)
      | (inr None, w') => (Finished, w', sink)
      | (inr (Some (rec, g')), w') =>
          let called := ResultsSink.__call__ io rec.1 rec.2 sink in
          match called.1 return outcome * world_ * ResultsSink.sink with
          | inl e => (Raised e, w', called.2)
          | inr _ => record_each io g' w' called.2
          end
      end
  end.

(** [engine.run(oids, features, answers)] and the loop over what it
    returns, lines 280-281. *)
Definition run_and_record (io : ResultsSink.io_env) (budget : Z)
    (non_interactive : bool) (oids : list N) (features : list row)
    (answers : gmap N bool) (w : world_) (sink : ResultsSink.sink)
  : option cli_exn * world_ * ResultsSink.sink :=
  match run (Engine budget non_interactive) oids features (Some answers) w with
  | (inl e, w1) => (Some (Propagated e), w1, sink)
  | (inr g, w1) =>
      let '(o, w2, sink') := record_each io g w1 sink in
      (match o with
       | Finished => None
       | Raised e => Some (Propagated e)
       end, w2, sink')
  end.

(** [transform_lc_features(features, feature_names)] with the names read
    from the file, lines 274-277.  [open(None)] is a [TypeError]. *)
Definition transform_features (env : cli_env) (a : args) (features : list row)
  : cli_exn + list row :=
  if arg_transform a then
    match arg_feature_names a with
    | None => inl TypeError
    | Some file =>
        match env_read_names env file with
        | inl e => inl (Propagated e)
        | inr names =>
            match env_transform env features names with
            | inl e => inl (Propagated e)
            | inr features' => inr features'
            end
        end
    end
  else inr features.

(** [main], lines 266-281: the exception that leaves it, if any, the world
    after it and the sink, if one was made, after [__exit__].  [__exit__]
    returns [False], so an exception of the block goes on; an exception of
    [__exit__] itself takes its place.  The detector of [w] is the one that
    [from_args] built. *)
Definition main (env : cli_env) (a : args) (w : world_)
  : option cli_exn * world_ * option ResultsSink.sink :=
  match parse_arguments a with
  | inl e => (Some e, w, None)
  | inr a =>
  match load_answers (env_read_csv env) (arg_prior_answers a) with
  | inl e => (Some (Propagated e), w, None)
  | inr answers =>
  match env_load_data env (arg_oid a) (arg_feature a) with
  | inl e => (Some (Propagated e), w, None)
  | inr (oids, features) =>
  match transform_features env a features with
  | inl e => (Some e, w, None)
  | inr features =>
  match ResultsSink.__init__ (env_io env) (arg_anomalies a) (arg_answers a) with
  | inl e => (Some (Propagated e), w, None)
  | inr sink =>
      let '(e, w', sink') :=
        run_and_record (env_io env) (arg_budget a) (arg_non_interactive a)
          oids features answers w sink in
      let exited := ResultsSink.__exit__ (env_io env) sink' in
      (match exited.1 with
       | inl x => Some (Propagated x)
       | inr _ => e
       end, w', Some exited.2)
  end end end end end.

End Main.

(** ** The calls of one interactive iteration *)

Section StepEvents.

Context {row : Type}.

(** What a completed iteration adds to the trace: [score], [confirm] on
    the identifier it yields, [observe] on the row it asked about with the
    label of the answer. *)
Definition step_events (feature : list row)
    (step : (N * bool) * nat * gmap nat Label) : list (event (row := row)) :=
  [EScore feature; EConfirm step.1.1.1] ++
  match feature !! step.1.2 with
  | Some r => [EObserve [r] [if step.1.1.2 then ANOMALY else REGULAR]]
  | None => []
  end.

End StepEvents.

(** ** Concrete files for the command line *)

Module DemoCli.

(** Two files of prior answers; any other file cannot be read. *)
Definition read_csv (filename : string) : exn + list (N * bool) :=
  if decide (filename = "first.csv")
  then inr [(10%N, true); (20%N, false); (10%N, false)]
  else if decide (filename = "second.csv")
  then inr [(20%N, true)]
  else inl OSError.

(** Every file can be opened and written; none is a terminal. *)
Definition io : ResultsSink.io_env :=
  ResultsSink.IoEnv (λ _, true) (λ _, true) (λ _, false).

(** Nothing can be opened for writing. *)
Definition io_closed : ResultsSink.io_env :=
  ResultsSink.IoEnv (λ _, false) (λ _, false) (λ _, false).

(** Every file can be opened; [/dev/full] takes no data. *)
Definition io_full : ResultsSink.io_env :=
  ResultsSink.IoEnv (λ _, true) (λ name, bool_decide (name ≠ "/dev/full"))
    (λ _, false).


(** Three objects with one feature each, which is also their score. *)
Definition env : cli_env (row := Z) := {|
  env_io := io;
  env_read_csv := read_csv;
  env_load_data := λ _ _, inr ([10; 20; 30]%N, [9; 1; 5]);
  env_read_names := λ _, inr [];
  env_transform := λ features _, inr features
|}.

Definition arguments (budget : Z) : args := {|
  arg_prior_answers := ["first.csv"; "second.csv"];
  arg_answers := None;
  arg_anomalies := "anomalies.txt";
  arg_oid := ["oid.dat"];
  arg_feature := ["feature.dat"];
  arg_feature_names := None;
  arg_transform := false;
  arg_non_interactive := true;
  arg_budget := budget
|}.

End DemoCli.

(** * Properties *)

(** ** NumPy helpers *)

Lemma np_where_from_elem (mask : list bool) (k i : nat) :
  i ∈ np_where_from k mask ↔ (k ≤ i)%nat ∧ mask !! (i - k)%nat = Some true.
Proof.
  revert k. induction mask as [|b mask IH]; intros k; simpl.
  - rewrite elem_of_nil. naive_solver.
  - destruct b.
    + rewrite elem_of_cons, IH. split.
      * intros [->|[Hk Hl]].
        -- split; [lia|]. by replace (k - k)%nat with 0%nat by lia.
        -- split; [lia|]. by replace (i - k)%nat with (S (i - S k)) by lia.
      * intros [Hk Hl]. destruct (decide (i = k)) as [|Hne]; [by left|right].
        split; [lia|]. by replace (i - k)%nat with (S (i - S k)) in Hl by lia.
    + rewrite IH. split.
      * intros [Hk Hl]. split; [lia|].
        by replace (i - k)%nat with (S (i - S k)) by lia.
      * intros [Hk Hl]. destruct (decide (i = k)) as [->|Hne].
        -- by replace (k - k)%nat with 0%nat in Hl by lia.
        -- split; [lia|]. by replace (i - k)%nat with (S (i - S k)) in Hl by lia.
Qed.

Lemma np_where_elem (mask : list bool) (i : nat) :
  i ∈ np_where mask ↔ mask !! i = Some true.
Proof.
  unfold np_where. rewrite np_where_from_elem.
  replace (i - 0)%nat with i by lia. intuition lia.
Qed.

Lemma np_where_from_NoDup (mask : list bool) (k : nat) :
  NoDup (np_where_from k mask).
Proof.
  revert k. induction mask as [|[] mask IH]; intros k; simpl;
    [constructor| |apply IH].
  constructor; [|apply IH]. rewrite np_where_from_elem. lia.
Qed.

Lemma np_isin_length (oid keys : list N) :
  length (np_isin oid keys) = length oid.
Proof. unfold np_isin. destruct (keys_dtype keys); by rewrite length_fmap. Qed.

(** An identifier that is among the keys is found, whatever the type of
    the array of keys. *)
Lemma np_isin_key (oid keys : list N) (i : nat) (o : N) :
  oid !! i = Some o → o ∈ keys → np_isin oid keys !! i = Some true.
Proof.
  intros Ho Hin. unfold np_isin.
  destruct (keys_dtype keys); rewrite list_lookup_fmap, Ho; cbn; f_equal;
    apply bool_decide_eq_true; [done|done|].
  by apply list_elem_of_fmap_2.
Qed.


Lemma float64_of_N_exact (n : N) : (n < two53)%N → float64_of_N n = n.
Proof.
  intros Hn. unfold float64_of_N. rewrite bool_decide_eq_true_2; [done|].
  destruct (decide (n = 0%N)) as [->|Hne]; [done|].
  rewrite N.size_log2 by done.
  assert (N.log2 n < 53)%N; [|lia].
  apply N.log2_lt_pow2; [lia|]. exact Hn.
Qed.

(** A located row is a row of [oid]. *)
Lemma located_lt (oid : list N) (answers : gmap N bool) (i : nat) :
  i ∈ located oid answers → (i < length oid)%nat.
Proof.
  unfold located. rewrite np_where_elem. intros Hi%lookup_lt_Some.
  by rewrite np_isin_length in Hi.
Qed.

(** Every row whose identifier is a key of [answers] is located. *)
Lemma located_key (oid : list N) (answers : gmap N bool) (i : nat) (o : N) :
  oid !! i = Some o → is_Some (answers !! o) → i ∈ located oid answers.
Proof.
  intros Ho [v Hv]. unfold located. rewrite np_where_elem.
  apply (np_isin_key oid _ i o Ho). apply list_elem_of_fmap.
  exists (o, v). split; [done|]. by apply elem_of_map_to_list.
Qed.



Lemma located_NoDup (oid : list N) (answers : gmap N bool) :
  NoDup (located oid answers).
Proof. apply np_where_from_NoDup. Qed.

Lemma np_take_ok {A} (arr : list A) (indices : list nat) :
  Forall (λ i, (i < length arr)%nat) indices →
  ∃ xs, np_take arr indices = inr xs ∧ Forall2 (λ i x, arr !! i = Some x) indices xs.
Proof.
  intros Hall. unfold np_take.
  destruct (mapM (λ i, arr !! i) indices) as [xs|] eqn:Hm.
  - exists xs. split; [done|]. by apply mapM_Some_1 in Hm.
  - exfalso. apply mapM_None_1 in Hm. apply Exists_exists in Hm as (i & Hi & Hn).
    rewrite Forall_forall in Hall. apply Hall in Hi.
    apply lookup_ge_None in Hn. lia.
Qed.

(** ** The engine *)

Section EngineFacts.

Context {row score detector expert : Type}.
Context `{!AnomalyDetector row score detector, !Expert expert, !Argsort score}.

#[local] Abbreviation W := (@world row detector expert).

(** Unfolds the monad of the engine. *)
Ltac py_unfold :=
  unfold mbind, mret, Py_bind, Py_ret, lift, raise, getitem, call_score,
    call_observe, call_confirm, call_train, log in *.

(** *** Seeding *)


Lemma located_in_range (oid : list N) (answers : gmap N bool) :
  Forall (λ i, (i < length oid)%nat) (located oid answers).
Proof.
  apply Forall_forall. intros i Hi. by eapply located_lt.
Qed.

(** With a non-empty dictionary and a matrix that has a row for every
    identifier, seeding succeeds: it labels every located row ANOMALY, shows
    the located rows to the detector in one call and returns the located
    rows with their labels. *)
Lemma seed_nonempty (oid : list N) (feature : list row)
    (answers : gmap N bool) (w : W) :
  size answers ≠ 0%nat →
  (length oid ≤ length feature)%nat →
  ∃ data,
    Forall2 (λ i r, feature !! i = Some r) (located oid answers) data ∧
    let labels := replicate (length data) ANOMALY in
    _handle_initial_knowns oid feature (Some answers) w =
      (inr (list_to_map (zip (located oid answers) labels)),
       World (detector_observe (w_detector w) data labels) (w_expert w)
         (w_trace w ++ [EObserve data labels])).
Proof.
  intros Hne Hlen.
  destruct (np_take_ok feature (located oid answers)) as (data & Htake & Hdata).
  { eapply Forall_impl; [apply located_in_range|]. simpl. lia. }
  exists data. split; [done|]. simpl.
  unfold _handle_initial_knowns. rewrite decide_False by done.
  fold (located oid answers). py_unfold. by rewrite Htake.
Qed.

(** X2.  Whatever the answers are, the labels seeding gives are all
    ANOMALY: the mask of line 94 is the 0-dimensional [False]. *)
Lemma seed_labels_all_anomaly (oid : list N) (feature : list row)
    (answers : option (gmap N bool)) (w w' : W) (known : gmap nat Label) :
  _handle_initial_knowns oid feature answers w = (inr known, w') →
  ∀ i l, known !! i = Some l → l = ANOMALY.
Proof.
  destruct answers as [answers|]; simpl; [|by intros [= <- _] i l].
  case_decide; [by intros [= <- _] i l|].
  py_unfold. destruct (np_take _ _) as [e|data]; [done|]. simpl.
  intros [= <- _] i l Hl.
  apply elem_of_list_to_map_2, elem_of_zip_r in Hl.
  by apply elem_of_replicate in Hl as [-> _].
Qed.

(** Seeding returns the located rows, and only them. *)
Lemma seed_known_dom (oid : list N) (feature : list row)
    (answers : option (gmap N bool)) (w w' : W) (known : gmap nat Label) :
  _handle_initial_knowns oid feature answers w = (inr known, w') →
  ∀ i o b, oid !! i = Some o → answers ≫= (.!! o) = Some b →
    is_Some (known !! i).
Proof.
  destruct answers as [answers|]; simpl; [|done].
  case_decide as Hsz.
  { intros _ i o b _ Hb. apply map_size_empty_iff in Hsz. by subst. }
  py_unfold. fold (located oid answers).
  destruct (np_take _ _) as [e|data] eqn:Htake; [done|]. simpl.
  intros [= <- _] i o b Ho Hb.
  assert (Hlen : length (located oid answers) = length data).
  { unfold np_take in Htake.
    destruct (mapM _ _) as [xs|] eqn:Hm; [|done].
    injection Htake as <-. apply mapM_Some_1 in Hm. by eapply Forall2_length. }
  assert (Hi : i ∈ located oid answers) by (eapply located_key; eauto).
  apply list_elem_of_lookup in Hi as [k Hk].
  exists ANOMALY. apply elem_of_list_to_map_1'.
  - intros y Hy. apply elem_of_zip_r in Hy.
    by apply elem_of_replicate in Hy as [-> _].
  - apply list_elem_of_lookup. exists k. apply lookup_zip_with_Some.
    exists i, ANOMALY. split_and!; [done|done|].
    apply lookup_replicate_2. apply lookup_lt_Some in Hk. lia.
Qed.

(** *** Generators *)

Lemma pep479_idem (e : exn) : pep479 (pep479 e) = pep479 e.
Proof. by destruct e. Qed.

Lemma consume_unfold {A} (g : gen A) (w : W) :
  consume g w =
    match next g w with
    | (inl e, w') => ([], Raised e, w')
    | (inr None, w') => ([], Finished, w')
    | (inr (Some (x, g')), w') =>
        let '(xs, o, w'') := consume g' w' in (x :: xs, o, w'')
    end.
Proof. by destruct g. Qed.

Lemma next_gen_body {A} (m : Py W (option (A * gen A))) (w : W) :
  next (gen_body m) w =
    match m w with
    | (inl e, w') => (inl (pep479 e), w')
    | r => r
    end.
Proof. done. Qed.

(** What [next] of a generator raises went through PEP 479 already. *)
Lemma next_gen_body_twice {A} (m : Py W (option (A * gen A))) (w : W) :
  next (gen_body (next (gen_body m))) w = next (gen_body m) w.
Proof.
  rewrite !next_gen_body. destruct (m w) as [[e|r] w']; [|done].
  by rewrite pep479_idem.
Qed.

(** *** Non-interactive mode *)

Lemma consume_non_interactive_loop (rng : list nat) (oid : list N)
    (idx : list nat) (w : W) :
  Forall (λ i, ∃ a o, idx !! i = Some a ∧ oid !! a = Some o) rng →
  ∃ recs,
    consume (non_interactive_loop rng oid idx) w = (recs, Finished, w) ∧
    Forall2 (λ i r, ∃ a, idx !! i = Some a ∧ oid !! a = Some r.1 ∧ r.2 = true)
      rng recs.
Proof.
  induction 1 as [|i rng (a & o & Ha & Ho) _ (recs & IH & Hrecs)].
  - by exists [].
  - exists ((o, true) :: recs). split.
    + rewrite consume_unfold. cbn. py_unfold. rewrite Ha. cbn.
      rewrite Ho. cbn. by rewrite IH.
    + constructor; [|done]. by exists a.
Qed.

Lemma argsort_in_range (scores : list score) (i a : nat) :
  argsort_permutes → argsort scores !! i = Some a → (a < length scores)%nat.
Proof.
  intros Hp Ha. apply list_elem_of_lookup_2 in Ha. rewrite (Hp scores) in Ha.
  apply elem_of_seq in Ha. lia.
Qed.

Lemma argsort_length (scores : list score) :
  argsort_permutes → length (argsort scores) = length scores.
Proof. intros Hp. by rewrite (Hp scores), length_seq. Qed.

(** What consuming the generator of [_run_non_interactive] gives: one call
    of [score], then as many records as the clamped budget says, the
    record number [i] naming the row at place [i] of the sorted order. *)
Lemma run_non_interactive_records (self : engine) (oid : list N)
    (feature : list row) (w : W) :
  scores_every_row → argsort_permutes → length oid = length feature →
  ∃ recs,
    consume (_run_non_interactive self oid feature) w =
      (recs, Finished,
       World (w_detector w) (w_expert w) (w_trace w ++ [EScore feature])) ∧
    length recs = Z.to_nat (Z.min (_budget self) (len feature)) ∧
    ∀ i r, recs !! i = Some r →
      ∃ a, argsort (detector_score (w_detector w) feature) !! i = Some a ∧
           oid !! a = Some r.1 ∧ r.2 = true.
Proof.
  intros Hsc Hp Hlen.
  set (scores := detector_score (w_detector w) feature).
  set (w1 := World (w_detector w) (w_expert w) (w_trace w ++ [EScore feature])).
  set (n := Z.to_nat (Z.min (_budget self) (len feature))).
  destruct (consume_non_interactive_loop (seq 0 n) oid (argsort scores) w1)
    as (recs & Hc & Hrecs).
  { apply Forall_forall. intros i [_ Hi]%elem_of_seq. simpl in Hi.
    assert (Hn : (n ≤ length feature)%nat) by (unfold n, len; lia).
    destruct (lookup_lt_is_Some_2 (argsort scores) i) as [a Ha].
    { rewrite argsort_length by done. unfold scores. rewrite Hsc. lia. }
    destruct (lookup_lt_is_Some_2 oid a) as [o Ho].
    { apply argsort_in_range in Ha; [|done]. unfold scores in Ha.
      rewrite Hsc in Ha. lia. }
    eauto. }
  exists recs. split_and!.
  - rewrite consume_unfold. unfold _run_non_interactive.
    rewrite next_gen_body. py_unfold. fold scores w1.
    rewrite consume_unfold in Hc. fold n. unfold range.
    destruct (next _ w1) as [[e|[[x g']|]] w2] eqn:Hn; simpl in *.
    + done.
    + by destruct (consume g' w2) as [[xs o] w3].
    + done.
  - apply Forall2_length in Hrecs. by rewrite length_seq in Hrecs.
  - intros i r Hr.
    destruct (Forall2_lookup_r _ _ _ _ _ Hrecs Hr) as (j & Hj & Hjr).
    apply lookup_seq in Hj as [-> _]. done.
Qed.

(** *** run *)

Lemma seed_succeeds (oid : list N) (feature : list row)
    (answers : option (gmap N bool)) (w : W) :
  (length oid ≤ length feature)%nat →
  ∃ known w', _handle_initial_knowns oid feature answers w = (inr known, w').
Proof.
  intros Hlen. destruct answers as [answers|]; [|by eexists _, _].
  destruct (decide (size answers = 0%nat)) as [Hsz|Hsz].
  - apply map_size_empty_iff in Hsz as ->. by eexists _, _.
  - destruct (seed_nonempty oid feature answers w Hsz Hlen) as (data & _ & Hs).
    eexists _, _. apply Hs.
Qed.

Lemma run_unfold (self : engine) (oid : list N) (feature : list row)
    (answers : option (gmap N bool)) (w : W) :
  run self oid feature answers w =
    match _handle_initial_knowns oid feature answers
            (World (detector_train (w_detector w) feature) (w_expert w)
               (w_trace w ++ [ETrain feature])) with
    | (inr known, w') =>
        (inr (if _non_interactive self
              then _run_non_interactive self oid feature
              else _run_interactive self oid feature known), w')
    | (inl e, w') => (inl e, w')
    end.
Proof.
  unfold run. py_unfold.
  destruct (_handle_initial_knowns _ _ _ _) as [[e|known] w']; [done|].
  by destruct (_non_interactive self).
Qed.

(** C1.  In non-interactive mode, with a budget [B >= 0] and a matrix of
    [N] rows aligned with the identifiers, [run] returns a generator that
    yields exactly [min(B, N)] records and then ends without raising; every
    record is [(identifier of a row, True)].  A budget above [N] is clamped
    by the [min]. *)
Theorem non_interactive_emits_min_budget (self : engine) (oid : list N)
    (feature : list row) (answers : option (gmap N bool)) (w : W) :
  scores_every_row → argsort_permutes →
  _non_interactive self = true →
  0 ≤ _budget self →
  length oid = length feature →
  ∃ g w1 recs w2,
    run self oid feature answers w = (inr g, w1) ∧
    consume g w1 = (recs, Finished, w2) ∧
    len recs = Z.min (_budget self) (len feature) ∧
    Forall (λ r, r.1 ∈ oid ∧ r.2 = true) recs.
Proof.
  intros Hsc Hp Hni Hb Hlen.
  set (w0 := World (detector_train (w_detector w) feature) (w_expert w)
               (w_trace w ++ [ETrain feature])).
  destruct (seed_succeeds oid feature answers w0) as (known & w1 & Hseed);
    [lia|].
  destruct (run_non_interactive_records self oid feature w1 Hsc Hp Hlen)
    as (recs & Hc & Hn & Hrecs).
  eexists _, w1, recs, _. split_and!.
  - rewrite run_unfold. fold w0. rewrite Hseed, Hni. done.
  - apply Hc.
  - unfold len in *. lia.
  - apply Forall_forall. intros r [i Hi]%list_elem_of_lookup.
    destruct (Hrecs i r Hi) as (a & _ & Ho & Ht). split; [|done].
    by eapply list_elem_of_lookup_2.
Qed.

(** *** Interactive mode *)

Lemma filter_head {A} (P : A → Prop) `{!∀ x, Decision (P x)} (l : list A)
    (x : A) (l' : list A) :
  filter P l = x :: l' →
  ∃ l1 l2, l = l1 ++ x :: l2 ∧ Forall (λ y, ¬ P y) l1 ∧ P x.
Proof.
  induction l as [|y l IH]; [done|].
  rewrite filter_cons. destruct (decide (P y)) as [Hy|Hy].
  - intros [= -> _]. by exists [], l.
  - intros (l1 & l2 & -> & Hl1 & Hx)%IH. exists (y :: l1), l2.
    split_and!; [done| by constructor | done].
Qed.

Lemma filter_nil_Forall {A} (P : A → Prop) `{!∀ x, Decision (P x)} (l : list A) :
  filter P l = [] ↔ Forall (λ y, ¬ P y) l.
Proof.
  induction l as [|y l IH]; [by split; [constructor|]|].
  rewrite filter_cons. destruct (decide (P y)) as [Hy|Hy].
  - split; [done|]. by intros [? _]%Forall_cons.
  - rewrite IH. split; [by constructor|]. by intros [_ ?]%Forall_cons.
Qed.

(** One completed iteration: the row asked about is the first of the sorted
    order that is not in [known]; the calls are [score], [confirm] on the
    identifier of that row, [observe] on that row alone; [known] gets that
    row. *)
Lemma interactive_iteration_inv (oid : list N) (feature : list row)
    (known known' : gmap nat Label) (w w' : W) (rec : N * bool) (a : nat) :
  interactive_iteration oid feature known w = (inr (rec, a, known'), w') →
  ∃ idx1 idx2 r,
    argsort (detector_score (w_detector w) feature) = idx1 ++ a :: idx2 ∧
    Forall (λ b, known !! b ≠ None) idx1 ∧
    known !! a = None ∧
    oid !! a = Some rec.1 ∧
    feature !! a = Some r ∧
    known' = <[a := if rec.2 then ANOMALY else REGULAR]> known ∧
    w_trace w' = w_trace w ++
      [EScore feature; EConfirm rec.1;
       EObserve [r] [if rec.2 then ANOMALY else REGULAR]].
Proof.
  unfold interactive_iteration, next_filter, _evaluate. py_unfold. cbn.
  destruct (filter _ _) as [|a0 rest] eqn:Hf; [done|]. cbn.
  destruct (oid !! a0) as [o|] eqn:Ho; [|done]. cbn.
  destruct (expert_confirm (w_expert w) o) as [result e'] eqn:Hc. cbn.
  destruct (feature !! a0) as [r|] eqn:Hr; [|done]. cbn.
  intros [= <- <- <- <-]. cbn.
  apply filter_head in Hf as (idx1 & idx2 & Hidx & H1 & Ha).
  apply bool_decide_eq_true in Ha.
  exists idx1, idx2, r. split_and!; try done.
  - eapply Forall_impl; [apply H1|]. intros b Hb Hn. apply Hb.
    by apply bool_decide_eq_true.
  - by rewrite <- !app_assoc.
Qed.

(** An iteration that finds every row of the sorted order in [known]
    raises [StopIteration] out of [next(filter(...))]. *)
Lemma interactive_iteration_exhausted (oid : list N) (feature : list row)
    (known : gmap nat Label) (w : W) :
  Forall (λ b, known !! b ≠ None)
    (argsort (detector_score (w_detector w) feature)) →
  interactive_iteration oid feature known w =
    (inl StopIteration,
     World (w_detector w) (w_expert w) (w_trace w ++ [EScore feature])).
Proof.
  intros Hall. unfold interactive_iteration, next_filter. py_unfold. cbn.
  replace (filter _ _) with (@nil nat); [done|].
  symmetry. apply filter_nil_Forall.
  eapply Forall_impl; [apply Hall|]. intros b Hb Hn. apply Hb.
  by apply bool_decide_eq_true in Hn.
Qed.

Lemma consume_interactive_loop (rng : list nat) (oid : list N)
    (feature : list row) (known : gmap nat Label) (w : W) :
  consume (interactive_loop rng oid feature known) w =
    let '(steps, o, w') := interactive_steps rng oid feature known w in
    (steps.*1.*1, o, w').
Proof.
  revert known w. induction rng as [|i rng IH]; intros known w; [done|].
  rewrite consume_unfold. cbn. py_unfold.
  destruct (interactive_iteration oid feature known w)
    as [[e|[[rec a] known']] w1]; cbn; [done|].
  rewrite IH.
  by destruct (interactive_steps rng oid feature known' w1) as [[steps o] w2].
Qed.

Lemma consume_run_interactive (self : engine) (oid : list N)
    (feature : list row) (known : gmap nat Label) (w : W) :
  consume (_run_interactive self oid feature known) w =
  consume (interactive_loop (range (Z.min (_budget self) (len feature)))
             oid feature known) w.
Proof.
  rewrite !consume_unfold. unfold _run_interactive.
  destruct (range _) as [|i rng]; [done|]. cbn [interactive_loop].
  by rewrite next_gen_body_twice.
Qed.

Lemma interactive_steps_add_one (rng : list nat) (oid : list N)
    (feature : list row) (known : gmap nat Label) (w : W) :
  each_step_adds_one oid known (interactive_steps rng oid feature known w).1.1.
Proof.
  revert known w. induction rng as [|i rng IH]; intros known w; [done|].
  cbn. destruct (interactive_iteration oid feature known w)
    as [[e|[[rec a] known']] w1] eqn:Hit; [done|].
  specialize (IH known' w1).
  destruct (interactive_steps rng oid feature known' w1) as [[steps o] w2].
  cbn in *.
  apply interactive_iteration_inv in Hit
    as (idx1 & idx2 & r & _ & _ & Ha & Ho & _ & -> & _).
  split_and!; try done.
  - by apply map_size_insert_None.
  - intros i' l Hl. rewrite lookup_insert_ne; [done|]. congruence.
Qed.

Lemma each_step_rows_fresh (oid : list N) (known : gmap nat Label)
    (steps : list ((N * bool) * nat * gmap nat Label)) :
  each_step_adds_one oid known steps →
  NoDup (steps.*1.*2) ∧ ∀ a, a ∈ steps.*1.*2 → known !! a = None.
Proof.
  revert known. induction steps as [|[[rec a] known'] steps IH]; intros known.
  { intros _. split; [constructor|]. by intros a ?%elem_of_nil. }
  cbn. intros (Ha & _ & -> & _ & Hmono & Hrest).
  destruct (IH _ Hrest) as [Hnd Hfresh]. split.
  - constructor; [|done]. intros Hin%Hfresh.
    by rewrite lookup_insert_eq in Hin.
  - intros b [->|Hb]%elem_of_cons; [done|].
    apply Hfresh in Hb. destruct (known !! b) as [l|] eqn:Hl; [|done].
    apply Hmono in Hl. congruence.
Qed.

Lemma run_interactive_steps (self : engine) (oid : list N)
    (feature : list row) (known : gmap nat Label) (w : W) :
  ∃ steps,
    (consume (_run_interactive self oid feature known) w).1.1 = steps.*1.*1 ∧
    each_step_adds_one oid known steps.
Proof.
  pose proof (interactive_steps_add_one
    (range (Z.min (_budget self) (len feature))) oid feature known w) as Hadd.
  rewrite consume_run_interactive, consume_interactive_loop.
  destruct (interactive_steps _ _ _ _ _) as [[steps o] w'].
  by exists steps.
Qed.

(** C6.  In interactive mode every completed iteration asked about a row
    that was not in [known] and added exactly that row to [known], with the
    label of the answer; no entry of [known] is lost or changed; and no row
    is asked about twice, nor a row that [known] held at the start. *)
Theorem interactive_known_grows (self : engine) (oid : list N)
    (feature : list row) (known : gmap nat Label) (w : W) :
  let '(steps, o, w') :=
    interactive_steps (range (Z.min (_budget self) (len feature)))
      oid feature known w in
  consume (_run_interactive self oid feature known) w = (steps.*1.*1, o, w') ∧
  each_step_adds_one oid known steps ∧
  NoDup (steps.*1.*2) ∧
  (∀ a, a ∈ steps.*1.*2 → known !! a = None).
Proof.
  pose proof (interactive_steps_add_one
    (range (Z.min (_budget self) (len feature))) oid feature known w) as Hadd.
  pose proof (consume_interactive_loop
    (range (Z.min (_budget self) (len feature))) oid feature known w) as Hc.
  rewrite <- consume_run_interactive in Hc.
  destruct (interactive_steps _ _ _ _ _) as [[steps o] w'].
  cbn in Hadd. split_and!; [done|done|..];
    by apply (each_step_rows_fresh oid known steps).
Qed.






(** Interactive mode never yields the identifier of a prior answer: seeding
    puts every row with such an identifier into [known], and the loop asks
    only about rows that are not in [known]. *)
Lemma steps_avoid_keys (oid : list N) (m : gmap N bool)
    (known : gmap nat Label)
    (steps : list ((N * bool) * nat * gmap nat Label)) :
  (∀ i o, oid !! i = Some o → is_Some (m !! o) → is_Some (known !! i)) →
  each_step_adds_one oid known steps →
  ∀ rec, rec ∈ steps.*1.*1 → m !! rec.1 = None.
Proof.
  revert known. induction steps as [|[[rec a] known'] steps IH]; intros known.
  { intros _ _ rec Hin. by apply elem_of_nil in Hin. }
  cbn. intros Hinv (Ha & Ho & -> & _ & Hmono & Hrest) rec' [->|Hin]%elem_of_cons.
  - destruct (m !! rec.1) as [b|] eqn:Hb; [|done].
    destruct (Hinv a rec.1 Ho) as [l Hl]; [by eexists|]. congruence.
  - eapply IH; [|done|done]. intros i o Hi Hm.
    destruct (Hinv i o Hi Hm) as [l Hl]. exists l. by apply Hmono.
Qed.

(** X1.  In interactive mode no record names an identifier that is a key
    of the prior answers. *)
Lemma interactive_never_yields_prior (self : engine) (oid : list N)
    (feature : list row) (m : gmap N bool) (w w1 w2 : W)
    (g : gen (N * bool)) (recs : list (N * bool)) (o : outcome) :
  _non_interactive self = false →
  run self oid feature (Some m) w = (inr g, w1) →
  consume g w1 = (recs, o, w2) →
  ∀ rec, rec ∈ recs → m !! rec.1 = None.
Proof.
  intros Hni Hrun Hc. rewrite run_unfold, Hni in Hrun.
  destruct (_handle_initial_knowns _ _ _ _) as [[e|known] w1'] eqn:Hseed;
    [done|].
  injection Hrun as <- <-.
  pose proof (run_interactive_steps self oid feature known w1') as Haux.
  rewrite Hc in Haux. destruct Haux as (steps & Hrecs & Hsteps).
  cbn in Hrecs. subst recs.
  apply (steps_avoid_keys oid m known steps); [|done].
  intros i o' Hi [b Hb]. by eapply seed_known_dom.
Qed.

(** X3.  When every row is in [known] and the budget asks for one more
    iteration, the generator raises [RuntimeError] (PEP 479) after one call
    of [score]. *)
Lemma interactive_all_known_raises (self : engine) (oid : list N)
    (feature : list row) (known : gmap nat Label) (w : W) :
  scores_every_row → argsort_permutes →
  (∀ b, (b < length feature)%nat → is_Some (known !! b)) →
  0 < Z.min (_budget self) (len feature) →
  consume (_run_interactive self oid feature known) w =
    ([], Raised RuntimeError,
     World (w_detector w) (w_expert w) (w_trace w ++ [EScore feature])).
Proof.
  intros Hsc Hp Hall Hpos. rewrite consume_run_interactive. unfold range.
  destruct (Z.to_nat _) as [|n] eqn:Hn; [lia|]. cbn [seq].
  rewrite consume_unfold. cbn [interactive_loop]. rewrite next_gen_body.
  py_unfold. rewrite (interactive_iteration_exhausted oid feature known w).
  { done. }
  apply Forall_forall. intros b Hb.
  apply list_elem_of_lookup in Hb as [i Hi].
  apply argsort_in_range in Hi; [|done]. rewrite Hsc in Hi.
  destruct (Hall b Hi) as [l Hl]. congruence.
Qed.

(** *** The order of selection *)

(** C4, as the code has it.  The order of selection is the one
    [np.argsort] gives to the scores: ascending, with nothing said about
    rows that have equal scores.  In non-interactive mode the records
    follow that order: record [i] names the row at place [i] of it, so that
    from one record to the next the score of the row named does not
    decrease. *)
Theorem selection_follows_ascending_scores (le : relation score)
    (self : engine) (oid : list N) (feature : list row) (w : W) :
  scores_every_row → argsort_permutes → argsort_ascending le →
  length oid = length feature →
  let scores := detector_score (w_detector w) feature in
  ∃ recs w',
    consume (_run_non_interactive self oid feature) w = (recs, Finished, w') ∧
    (∀ i r, recs !! i = Some r →
       ∃ a, argsort scores !! i = Some a ∧ oid !! a = Some r.1 ∧ r.2 = true) ∧
    (∀ i j ri rj, (i ≤ j)%nat → recs !! i = Some ri → recs !! j = Some rj →
       ∃ a b sa sb,
         oid !! a = Some ri.1 ∧ oid !! b = Some rj.1 ∧
         scores !! a = Some sa ∧ scores !! b = Some sb ∧ le sa sb).
Proof.
  intros Hsc Hp Hasc Hlen scores.
  destruct (run_non_interactive_records self oid feature w Hsc Hp Hlen)
    as (recs & Hc & Hn & Hrecs).
  exists recs. eexists. split_and!; [done|done|].
  intros i j ri rj Hij Hi Hj.
  destruct (Hrecs i ri Hi) as (a & Ha & Hoa & _).
  destruct (Hrecs j rj Hj) as (b & Hb & Hob & _).
  assert (Hsa : is_Some (scores !! a)).
  { apply lookup_lt_is_Some. unfold scores. rewrite Hsc, <- Hlen.
    by apply lookup_lt_Some in Hoa. }
  assert (Hsb : is_Some (scores !! b)).
  { apply lookup_lt_is_Some. unfold scores. rewrite Hsc, <- Hlen.
    by apply lookup_lt_Some in Hob. }
  destruct Hsa as [sa Hsa], Hsb as [sb Hsb].
  exists a, b, sa, sb. split_and!; try done.
  by apply (Hasc scores i j a b).
Qed.

(** X16.  In interactive mode the row asked about is not in [known] and
    has the least score among the rows that are not in [known], for the
    scores the detector gives at that iteration. *)
Theorem interactive_asks_least_score (le : relation score)
    (oid : list N) (feature : list row) (known known' : gmap nat Label)
    (w w' : W) (rec : N * bool) (a : nat) :
  argsort_permutes → argsort_ascending le →
  interactive_iteration oid feature known w = (inr (rec, a, known'), w') →
  let scores := detector_score (w_detector w) feature in
  known !! a = None ∧ oid !! a = Some rec.1 ∧
  ∀ b sa sb, known !! b = None →
    scores !! a = Some sa → scores !! b = Some sb → le sa sb.
Proof.
  intros Hp Hasc Hit scores.
  apply interactive_iteration_inv in Hit
    as (idx1 & idx2 & r & Hidx & Hknown & Ha & Ho & _).
  fold scores in Hidx. split_and!; [done|done|].
  intros b sa sb Hb Hsa Hsb.
  assert (Hin : b ∈ argsort scores).
  { rewrite (Hp scores). apply elem_of_seq. apply lookup_lt_Some in Hsb. lia. }
  rewrite Hidx in Hin. apply elem_of_app in Hin as [Hin|Hin].
  { rewrite Forall_forall in Hknown. by apply Hknown in Hin. }
  apply list_elem_of_lookup in Hin as [k Hk].
  apply (Hasc scores (length idx1) (length idx1 + k)%nat a b); [lia|..|done|done].
  - by rewrite Hidx, list_lookup_middle.
  - by rewrite Hidx, lookup_app_r, Nat.add_comm, Nat.add_sub by lia.
Qed.

End EngineFacts.

(** ** The sink *)

Section SinkFacts.

Import ResultsSink.

Lemma string_app_assoc (s1 s2 s3 : string) :
  (s1 +:+ s2) +:+ s3 = s1 +:+ s2 +:+ s3.
Proof.
  induction s1 as [|c s1 IH]; [done|].
  change (String c ((s1 +:+ s2) +:+ s3) = String c (s1 +:+ s2 +:+ s3)).
  by f_equal.
Qed.

Lemma string_app_nil_r (s : string) : s +:+ "" = s.
Proof.
  induction s as [|c s IH]; [done|].
  change (String c (s +:+ "") = String c s). by f_equal.
Qed.

(** [write] and then [flush] on a file that is open and can be written,
    line-buffered or not. *)
Lemma write_ok (env : io_env) (s : string) (f : file) :
  usable env f →
  ∃ f', file_write env s f = (inr (), f') ∧
        file_flush env f' = (inr (), written_and_flushed s f).
Proof.
  intros [Hopen Hw]. unfold file_write, file_flush, written_and_flushed.
  rewrite Hopen, Hw.
  destruct (line_buffered env (f_name f) && has_newline s);
    (eexists; split; [done|]); cbn; rewrite Hw; cbn.
  - by rewrite string_app_nil_r, <- app_assoc.
  - by rewrite <- app_assoc.
Qed.


(** Closing a file that was opened and not written to. *)
Lemma close_fresh (env : io_env) (name : string) :
  file_close env (File name "" "" false []) = (inr (), opened_and_closed name).
Proof. unfold file_close. cbn. by destruct (can_write env name). Qed.

(** C8.  [sink(name, decision)] on a sink whose files are open and can be
    written: the anomalies file gets the line [name] exactly when
    [decision] is true; the answers file, when there is one, gets the line
    [name,1] or [name,0] whatever the decision; and each [write] is followed
    at once by a [flush], after which nothing is left in the buffer. *)
Theorem record_writes_and_flushes (env : io_env) (name : N) (decision : bool)
    (anomalies : file) (answers : option file) :
  usable env anomalies →
  (∀ f, answers = Some f → usable env f) →
  __call__ env name decision (Sink (Some anomalies) answers) =
    (inr (),
     Sink
       (Some (if decision
              then written_and_flushed (pretty name +:+ nl) anomalies
              else anomalies))
       (written_and_flushed
          (pretty name +:+ "," +:+ (if decision then "1" else "0") +:+ nl)
        <$> answers)).
Proof.
  intros Ha Hb.
  set (line := pretty name +:+ "," +:+ (if decision then "1" else "0") +:+ nl).
  assert (Hanswer : ∀ fa,
    _handle_answer env name decision (Sink fa answers) =
      (inr (), Sink fa (written_and_flushed line <$> answers))).
  { intros fa. unfold _handle_answer, if_answers, on_answers. fold line.
    destruct answers as [f|]; [|done].
    destruct (write_ok env line f) as (f' & Hf' & Hf); [by apply Hb|].
    unfold mbind, Py_bind. cbn [_answers _anomalies fmap option_fmap option_map].
    rewrite Hf'. cbn [_answers _anomalies fst snd]. by rewrite Hf. }
  unfold __call__, _handle_anomaly. destruct decision; cbn [negb].
  - destruct (write_ok env (pretty name +:+ nl) anomalies)
      as (f' & Hf' & Hf); [done|].
    unfold on_anomalies, mbind, Py_bind. cbn [_answers _anomalies].
    rewrite Hf'. cbn [_answers _anomalies fst snd]. rewrite Hf. apply Hanswer.
  - apply Hanswer.
Qed.


End SinkFacts.

(** ** The concrete collaborators meet what the engine relies on *)

Section DemoFacts.

Import Demo.

Lemma StronglySorted_lookup_lt {A} (R : relation A) (l : list A) (i j : nat)
    (a b : A) :
  StronglySorted R l → (i < j)%nat → l !! i = Some a → l !! j = Some b → R a b.
Proof.
  intros Hs Hij Ha Hb. rewrite <- (take_drop j l) in Hs.
  eapply StronglySorted_app_1_elem_of; [done|..].
  - apply list_elem_of_lookup. exists i. by rewrite lookup_take_lt.
  - apply list_elem_of_lookup. exists 0%nat.
    by rewrite lookup_drop, Nat.add_0_r.
Qed.

Lemma merge_argsort_ok (R : list Z → relation nat)
    `{!∀ s, RelDecision (R s)} :
  (∀ s, Transitive (R s)) → (∀ s, Total (R s)) →
  (∀ s i j, R s i j → key s i ≤ key s j) →
  ∀ scores, is_argsort Z.le scores (merge_sort (R scores) (seq 0 (length scores))).
Proof.
  intros Htrans Htotal Hle scores. split; [apply merge_sort_Permutation|].
  intros i j a b sa sb Hij Ha Hb Hsa Hsb.
  assert (Hka : key scores a = sa) by (unfold key; by rewrite Hsa).
  assert (Hkb : key scores b = sb) by (unfold key; by rewrite Hsb).
  destruct (decide (i = j)) as [->|Hne]; [by simplify_eq|].
  rewrite <- Hka, <- Hkb. apply Hle.
  eapply (StronglySorted_lookup_lt (R scores)); [|  |done|done]; [|lia].
  by apply StronglySorted_merge_sort.
Qed.

Lemma demo_scores_every_row : scores_every_row (row := Z).
Proof. by intros d feature. Qed.

Global Instance before_row_order_trans s : Transitive (before_row_order s).
Proof. unfold before_row_order. intros i j k ??. lia. Qed.
Global Instance before_row_order_total s : Total (before_row_order s).
Proof. unfold before_row_order. intros i j. lia. Qed.

Lemma row_order_is_argsort (scores : list Z) :
  is_argsort Z.le scores (argsort (Argsort := argsort_row_order) scores).
Proof.
  apply (merge_argsort_ok before_row_order); try apply _.
  unfold before_row_order. intros s i j. lia.
Qed.

Lemma row_order_permutes : argsort_permutes (Argsort0 := argsort_row_order).
Proof. intros scores. apply row_order_is_argsort. Qed.

Lemma row_order_ascending :
  argsort_ascending (Argsort0 := argsort_row_order) Z.le.
Proof. intros scores. apply row_order_is_argsort. Qed.

End DemoFacts.

(** ** Scenarios *)

Section Scenarios.

Import Demo ResultsSink.

(** The end-to-end scenario of the specification: scores
    [0.9, 0.1, 0.5, 0.2, 0.8] (here times ten), identifiers 10 to 50,
    budget 2, non-interactive. *)
Example end_to_end_non_interactive :
  run_all argsort_row_order (Engine 2 true) [10; 20; 30; 40; 50]%N
    [9; 1; 5; 2; 8] None [] =
  inr ([(20%N, true); (40%N, true)], Finished,
       [ETrain [9; 1; 5; 2; 8]; EScore [9; 1; 5; 2; 8]]).
Proof. vm_compute. reflexivity. Qed.

(** An interactive run: the expert says yes, then no; budget 2. *)
Example end_to_end_interactive :
  run_all argsort_row_order (Engine 2 false) [10; 20; 30]%N [9; 1; 5]
    None [true; false] =
  inr ([(20%N, true); (30%N, false)], Finished,
       [ETrain [9; 1; 5];
        EScore [9; 1; 5]; EConfirm 20; EObserve [1] [ANOMALY];
        EScore [9; 1; 5]; EConfirm 30; EObserve [5] [REGULAR]]).
Proof. vm_compute. reflexivity. Qed.

(** C1 at work: budget 7 over five rows, with a prior answer. *)
Lemma non_interactive_emits_min_budget_witness :
  ∃ g w1 recs w2,
    run (Argsort0 := argsort_row_order) (Engine 7 true)
      [10; 20; 30; 40; 50]%N [9; 1; 5; 2; 8] (Some {[30%N := true]})
      (start []) = (inr g, w1) ∧
    consume g w1 = (recs, Finished, w2) ∧
    len recs = Z.min 7 (len [9; 1; 5; 2; 8]) ∧
    Forall (λ r, r.1 ∈ [10; 20; 30; 40; 50]%N ∧ r.2 = true) recs.
Proof.
  apply (non_interactive_emits_min_budget (Argsort0 := argsort_row_order)
           (Engine 7 true));
    [apply demo_scores_every_row | apply row_order_permutes
    | reflexivity | cbn; lia | reflexivity].
Defined.

(** C2, where the code departs from it.  Non-interactive mode, identifiers
    [10, 20, 30], scores [0.9, 0.1, 0.5], prior answers [{20: True}],
    budget 1: the record yielded is [(20, True)], and 20 is a key of the
    prior answers. *)
Lemma non_interactive_yields_prior_identifier :
  run_all argsort_row_order (Engine 1 true) [10; 20; 30]%N [9; 1; 5]
    (Some {[20%N := true]}) [] =
  inr ([(20%N, true)], Finished,
       [ETrain [9; 1; 5]; EObserve [1] [ANOMALY]; EScore [9; 1; 5]]) ∧
  ({[20%N := true]} : gmap N bool) !! 20%N = Some true.
Proof. split; vm_compute; reflexivity. Qed.

(** C3, where the code departs from it.  Identifiers [10, 20, 30], prior
    answers [{20: False}]: the row 1 is located, the specification labels
    it REGULAR, the code labels it ANOMALY, in the call of [observe] and in
    the map it returns. *)
Lemma seeding_labels_false_answer_anomaly :
  _handle_initial_knowns [10; 20; 30]%N [9; 1; 5] (Some {[20%N := false]})
    (start []) =
  (inr {[1%nat := ANOMALY]}, World 1%nat [] [EObserve [1] [ANOMALY]]) ∧
  resolved_label [10; 20; 30]%N {[20%N := false]} 1 = Some REGULAR.
Proof. split; vm_compute; reflexivity. Qed.

(** C5, where the code departs from it.  Interactive mode, one row whose
    identifier has a prior answer, budget 1: the first [next] finds no row
    outside [known] and the generator raises [RuntimeError]. *)
Lemma all_known_raises_runtime_error :
  run_all argsort_row_order (Engine 1 false) [10]%N [9]
    (Some {[10%N := true]}) [] =
  inr ([], Raised RuntimeError,
       [ETrain [9]; EObserve [9] [ANOMALY]; EScore [9]]).
Proof. vm_compute. reflexivity. Qed.


(** Identifiers on both sides of [2**63]: the keys 5 and [2**63 + 2] make
    an array of [float64], in which [2**63 + 1] and [2**63 + 2] are the same
    number, so the row 2 is located although its identifier is no key; with
    a matrix of two rows, seeding then raises [IndexError]. *)
Example located_through_float64 :
  located [5; 9223372036854775810; 9223372036854775809]%N
    {[5%N := true; 9223372036854775810%N := true]} = [0; 1; 2]%nat ∧
  ({[5%N := true; 9223372036854775810%N := true]} : gmap N bool)
    !! 9223372036854775809%N = None ∧
  run_all argsort_row_order (Engine 1 true)
    [5; 9223372036854775810; 9223372036854775809]%N [9; 1]
    (Some {[5%N := true; 9223372036854775810%N := true]}) [] =
  inl IndexError.
Proof. split_and!; vm_compute; reflexivity. Qed.

(** NumPy's sort on the scenario of the specification, and on two equal
    scores. *)
Example numpy_sort_end_to_end :
  run_all argsort_numpy (Engine 2 true) [10; 20; 30; 40; 50]%N
    [9; 1; 5; 2; 8] None [] =
  inr ([(20%N, true); (40%N, true)], Finished,
       [ETrain [9; 1; 5; 2; 8]; EScore [9; 1; 5; 2; 8]]) ∧
  argsort (Argsort := argsort_numpy) [5; 5] = [0; 1]%nat.
Proof. split; vm_compute; reflexivity. Qed.

(** C4 as stated fails.  Seventeen rows that all have the score 0.5 (here
    5), identifiers 100 to 116, budget 17, non-interactive.  The segment is
    longer than 16, so NumPy's sort partitions it once, and the partition
    exchanges positions that hold equal scores: the order it returns, an
    ascending one all the same, starts 0, 14, 13, and the record after
    [(100, True)] is [(114, True)], before the records of the rows 1 to 13,
    which have the same score. *)
Lemma equal_scores_leave_row_order :
  argsort (Argsort := argsort_numpy) (replicate 17 5) =
    [0; 14; 13; 12; 11; 10; 9; 15; 8; 6; 5; 4; 3; 2; 1; 7; 16]%nat ∧
  is_argsort Z.le (replicate 17 5)
    (argsort (Argsort := argsort_numpy) (replicate 17 5)) ∧
  ¬ ties_in_row_order (replicate 17 5)
      (argsort (Argsort := argsort_numpy) (replicate 17 5)) ∧
  run_all argsort_numpy (Engine 17 true)
    [100; 101; 102; 103; 104; 105; 106; 107; 108; 109; 110; 111; 112; 113;
     114; 115; 116]%N (replicate 17 5) None [] =
  inr ([(100%N, true); (114%N, true); (113%N, true); (112%N, true);
        (111%N, true); (110%N, true); (109%N, true); (115%N, true);
        (108%N, true); (106%N, true); (105%N, true); (104%N, true);
        (103%N, true); (102%N, true); (101%N, true); (107%N, true);
        (116%N, true)], Finished,
       [ETrain (replicate 17 5); EScore (replicate 17 5)]).
Proof.
  split_and!.
  - vm_compute. reflexivity.
  - split.
    + rewrite <- (merge_sort_Permutation Nat.le). vm_compute. reflexivity.
    + intros i j a b sa sb _ _ _ Ha Hb.
      apply lookup_replicate in Ha as [-> _].
      by apply lookup_replicate in Hb as [-> _].
  - intros Hstable.
    assert (Hlt : (14 < 13)%nat); [|lia].
    apply (Hstable 1%nat 2%nat 14%nat 13%nat 5);
      [lia | vm_compute; reflexivity ..].
  - vm_compute. reflexivity.
Qed.

(** C4 as amended, at work on scores with ties. *)
Lemma selection_follows_ascending_scores_witness :
  let scores := [5; 1; 5; 1] in
  ∃ recs w',
    consume (_run_non_interactive (Argsort0 := argsort_row_order)
               (Engine 3 true) [10; 20; 30; 40]%N [5; 1; 5; 1]) (start []) =
      (recs, Finished, w') ∧
    (∀ i r, recs !! i = Some r →
       ∃ a, argsort (Argsort := argsort_row_order) scores !! i = Some a ∧
            [10; 20; 30; 40]%N !! a = Some r.1 ∧ r.2 = true) ∧
    (∀ i j ri rj, (i ≤ j)%nat → recs !! i = Some ri → recs !! j = Some rj →
       ∃ a b sa sb,
         [10; 20; 30; 40]%N !! a = Some ri.1 ∧
         [10; 20; 30; 40]%N !! b = Some rj.1 ∧
         scores !! a = Some sa ∧ scores !! b = Some sb ∧ sa ≤ sb).
Proof.
  exact (selection_follows_ascending_scores (Argsort0 := argsort_row_order)
           Z.le (Engine 3 true) [10; 20; 30; 40]%N [5; 1; 5; 1] (start [])
           demo_scores_every_row row_order_permutes row_order_ascending
           eq_refl).
Defined.

(** X16 at work: the first question of an interactive run over scores with
    ties. *)
Lemma interactive_asks_least_score_witness :
  let scores := [5; 1; 5; 1] in
  (∅ : gmap nat Label) !! 1%nat = None ∧
  [10; 20; 30; 40]%N !! 1%nat = Some (20%N, true).1 ∧
  ∀ b sa sb, (∅ : gmap nat Label) !! b = None →
    scores !! 1%nat = Some sa → scores !! b = Some sb → sa ≤ sb.
Proof.
  refine (interactive_asks_least_score (Argsort0 := argsort_row_order)
            Z.le [10; 20; 30; 40]%N [5; 1; 5; 1] ∅
            {[1%nat := ANOMALY]}
            (start [true])
            (World 1%nat []
               [EScore [5; 1; 5; 1]; EConfirm 20; EObserve [1] [ANOMALY]])
            (20%N, true) 1%nat row_order_permutes row_order_ascending _).
  vm_compute. reflexivity.
Defined.

(** C8 at work: a refusal recorded on a sink that has an answers file
    with its header still in the buffer. *)
Lemma record_writes_and_flushes_witness :
  let env := IoEnv (λ _, true) (λ _, true) (λ _, false) in
  let anomalies := File "anomalies.txt" "" "" false [] in
  let answers :=
    File "answers.csv" "" ("oid,is_anomaly" +:+ nl) false
      [OpWrite ("oid,is_anomaly" +:+ nl)] in
  __call__ env 20 false (Sink (Some anomalies) (Some answers)) =
    (inr (),
     Sink (Some anomalies)
       (Some (File "answers.csv" ("oid,is_anomaly" +:+ nl +:+ "20,0" +:+ nl)
                "" false
                [OpWrite ("oid,is_anomaly" +:+ nl);
                 OpWrite ("20,0" +:+ nl); OpFlush]))).
Proof.
  intros env anomalies answers.
  apply (record_writes_and_flushes env 20 false anomalies (Some answers)).
  - split; reflexivity.
  - intros f [= <-]. split; reflexivity.
Defined.

(** X2 at work. *)
Lemma seed_labels_all_anomaly_witness :
  Forall (λ il : nat * Label, il.2 = ANOMALY)
    (map_to_list ({[1%nat := ANOMALY]} : gmap nat Label)).
Proof.
  apply Forall_forall. intros [i l] Hin%elem_of_map_to_list.
  refine (seed_labels_all_anomaly [10; 20; 30]%N [9; 1; 5]
            (Some {[20%N := false]}) (start [])
            (World 1%nat [] [EObserve [1] [ANOMALY]])
            {[1%nat := ANOMALY]} _ i l Hin).
  vm_compute. reflexivity.
Defined.

(** X3 at work. *)
Lemma interactive_all_known_raises_witness :
  consume (_run_interactive (Argsort0 := argsort_row_order) (Engine 1 false)
             [10]%N [9] {[0%nat := ANOMALY]}) (start []) =
    ([], Raised RuntimeError, World 0%nat [] [EScore [9]]).
Proof.
  apply (interactive_all_known_raises (Argsort0 := argsort_row_order)
           (Engine 1 false) [10]%N [9] {[0%nat := ANOMALY]} (start []));
    [apply demo_scores_every_row | apply row_order_permutes | | reflexivity].
  intros b Hb. assert (b = 0%nat) as -> by (cbn in Hb; lia).
  eexists. vm_compute. reflexivity.
Defined.

(** X1 at work: two questions asked, neither about the identifier 20. *)
Lemma interactive_never_yields_prior_witness :
  Forall (λ rec : N * bool, ({[20%N := true]} : gmap N bool) !! rec.1 = None)
    [(30%N, true); (10%N, false)].
Proof.
  apply Forall_forall.
  apply (interactive_never_yields_prior (Argsort0 := argsort_row_order)
           (Engine 2 false) [10; 20; 30]%N [9; 1; 5] {[20%N := true]}
           (start [true; false])
           (World 1%nat [true; false]
              [ETrain [9; 1; 5]; EObserve [1] [ANOMALY]])
           (World 3%nat []
              [ETrain [9; 1; 5]; EObserve [1] [ANOMALY];
               EScore [9; 1; 5]; EConfirm 30; EObserve [5] [ANOMALY];
               EScore [9; 1; 5]; EConfirm 10; EObserve [9] [REGULAR]])
           (_run_interactive (Argsort0 := argsort_row_order) (Engine 2 false)
              [10; 20; 30]%N [9; 1; 5] {[1%nat := ANOMALY]})
           [(30%N, true); (10%N, false)] Finished);
    [reflexivity | reflexivity | vm_compute; reflexivity].
Defined.

End Scenarios.

(** ** Loading the prior answers *)

Section LoadAnswersFacts.

Variable read_csv : string → exn + list (N * bool).

Lemma foldl_insert_union (rows : list (N * bool)) (acc : gmap N bool) :
  foldl (λ d kv, <[kv.1 := kv.2]> d) acc rows = dict_zip rows ∪ acc.
Proof.
  unfold dict_zip. revert acc.
  induction rows as [|[k v] rows IH]; intros acc; cbn.
  - by rewrite (left_id_L ∅ (∪)).
  - rewrite IH, (IH (<[k:=v]> ∅)), insert_empty.
    by rewrite insert_union_singleton_l, (assoc_L (∪)).
Qed.

Lemma dict_zip_app (rows1 rows2 : list (N * bool)) :
  dict_zip (rows1 ++ rows2) = dict_zip rows2 ∪ dict_zip rows1.
Proof.
  unfold dict_zip at 1. rewrite foldl_app.
  fold (dict_zip rows1). apply foldl_insert_union.
Qed.

(** A dictionary made from rows gives each identifier the answer of the
    last row about it. *)
Lemma dict_zip_lookup (rows : list (N * bool)) (k : N) :
  dict_zip rows !! k = last_answer rows k.
Proof.
  unfold last_answer.
  induction rows as [|[k' v] rows IH] using rev_ind; [done|].
  rewrite dict_zip_app, filter_app, fmap_app, lookup_union.
  unfold dict_zip at 1. cbn [foldl fst snd]. rewrite insert_empty.
  rewrite filter_cons, filter_nil. cbn [fst].
  destruct (decide (k' = k)) as [->|Hne].
  - rewrite lookup_singleton_eq. cbn. rewrite last_snoc.
    by destruct (dict_zip rows !! k).
  - rewrite lookup_singleton_ne by done. cbn.
    by rewrite (left_id_L None _), app_nil_r.
Qed.

Lemma load_answers_loop_ok (files : list string)
    (tables : list (list (N * bool))) (res : gmap N bool) :
  Forall2 (λ f rows, read_csv f = inr rows) files tables →
  load_answers_loop read_csv res files = inr (dict_zip (concat tables) ∪ res).
Proof.
  intros Hall. revert res.
  induction Hall as [|f rows files tables Hf _ IH]; intros res; cbn.
  - by rewrite (left_id_L ∅ (∪)).
  - unfold load_single. rewrite Hf, IH, dict_zip_app.
    by rewrite (assoc_L (∪)).
Qed.

(** X4.  When every file can be read, [load_answers] returns the
    dictionary of all the rows of all the files in their order: every
    identifier has the answer of the last row about it, in the last file
    that has one; no file at all gives the empty dictionary. *)
Theorem load_answers_last_row_wins (files : list string)
    (tables : list (list (N * bool))) :
  Forall2 (λ f rows, read_csv f = inr rows) files tables →
  ∃ answers,
    load_answers read_csv files = inr answers ∧
    (∀ k, answers !! k = last_answer (concat tables) k) ∧
    (files = [] → answers = ∅).
Proof.
  intros Hall. exists (dict_zip (concat tables)). split_and!.
  - unfold load_answers. rewrite (load_answers_loop_ok files tables) by done.
    by rewrite (right_id_L ∅ (∪)).
  - apply dict_zip_lookup.
  - intros ->. by apply Forall2_nil_inv_l in Hall as ->.
Qed.

(** X5.  The first file that cannot be read ends [load_answers] with the
    exception of that file; what the files before it held is not
    returned. *)
Theorem load_answers_fails_fast (files1 files2 : list string) (f : string)
    (tables : list (list (N * bool))) (e : exn) :
  Forall2 (λ f rows, read_csv f = inr rows) files1 tables →
  read_csv f = inl e →
  load_answers read_csv (files1 ++ f :: files2) = inl e.
Proof.
  intros Hall Hf. unfold load_answers. generalize (∅ : gmap N bool).
  induction Hall as [|f' rows files tables Hf' _ IH]; intros res; cbn.
  - unfold load_single. by rewrite Hf.
  - unfold load_single at 1. rewrite Hf'. apply IH.
Qed.

End LoadAnswersFacts.

(** ** The life of a sink *)

Section SinkLifecycle.

Import ResultsSink.

Lemma file_close_clean (io : io_env) (f : file) :
  closes_cleanly io f →
  ∃ f', file_close io f = (inr (), f') ∧
        f_name f' = f_name f ∧ f_closed f' = true ∧
        contents f' = contents f ∧
        (f_closed f = false → f_buffer f' = "" ∧ f_disk f' = contents f) ∧
        file_close io f' = (inr (), f').
Proof.
  intros Hclean. unfold file_close, contents.
  destruct (f_closed f) eqn:Hc.
  - exists f. rewrite Hc. by split_and!.
  - assert (Hgo : can_write io (f_name f) || bool_decide (f_buffer f = "")
                  = true).
    { destruct Hclean as [?|[->| ->]]; [congruence|done|].
      by rewrite orb_true_r. }
    rewrite Hgo. eexists. split; [done|]. cbn.
    split_and!; try done. by rewrite string_app_nil_r.
Qed.

Lemma file_close_loss (io : io_env) (f : file) :
  ¬ closes_cleanly io f →
  file_close io f = (inl OSError, closed_with_loss f).
Proof.
  intros Hno. unfold file_close, closes_cleanly in *.
  destruct (f_closed f); [naive_solver|].
  destruct (can_write io (f_name f)); [naive_solver|].
  case_bool_decide; [naive_solver|done].
Qed.

(** X6.  [__exit__] on a sink whose files have nothing that their target
    refuses: it returns [False], so that an exception of the [with] block
    goes on to the caller, and leaves every file of the sink closed with
    all that was written to it, flushed or not; a second [_cleanup] changes
    nothing; and a confirmed record sent to the sink afterwards raises
    [ValueError] and writes nothing.  When the target of the anomalies file
    refuses what is in the buffer, [__exit__] raises [OSError], the buffer
    is lost and the answers file is not closed; when only the target of the
    answers file refuses, [__exit__] raises [OSError] with both files
    closed and the buffer of the answers file lost. *)
Theorem exit_closes_and_keeps_contents (io : io_env) (self : sink) :
  ((∀ f, _anomalies self = Some f → closes_cleanly io f) →
   (∀ f, _answers self = Some f → closes_cleanly io f) →
   ∃ self',
     __exit__ io self = (inr false, self') ∧
     _cleanup io self' = (inr (), self') ∧
     option_Forall2
       (λ f f', f_name f' = f_name f ∧ f_closed f' = true ∧
                contents f' = contents f ∧
                (f_closed f = false → f_disk f' = contents f))
       (_anomalies self) (_anomalies self') ∧
     option_Forall2
       (λ f f', f_name f' = f_name f ∧ f_closed f' = true ∧
                contents f' = contents f ∧
                (f_closed f = false → f_disk f' = contents f))
       (_answers self) (_answers self') ∧
     (∀ name, is_Some (_anomalies self) →
        __call__ io name true self' = (inl ValueError, self'))) ∧
  (∀ f, _anomalies self = Some f → ¬ closes_cleanly io f →
     __exit__ io self =
       (inl OSError, Sink (Some (closed_with_loss f)) (_answers self))) ∧
  (∀ f, (∀ fa, _anomalies self = Some fa → closes_cleanly io fa) →
     _answers self = Some f → ¬ closes_cleanly io f →
     ∃ anomalies',
       __exit__ io self =
         (inl OSError, Sink anomalies' (Some (closed_with_loss f))) ∧
       option_Forall2
         (λ fa fa', f_name fa' = f_name fa ∧ f_closed fa' = true ∧
                    contents fa' = contents fa)
         (_anomalies self) anomalies').
Proof.
  destruct self as [fa fb].
  unfold __exit__, _cleanup, if_anomalies, if_answers, on_anomalies,
    on_answers, mbind, mret, Py_bind, Py_ret.
  cbn [_anomalies _answers]. split_and!.
  - intros Ha Hb.
    assert (Hfa : ∃ fa', option_Forall2
      (λ f f', file_close io f = (inr (), f') ∧ f_name f' = f_name f ∧
               f_closed f' = true ∧ contents f' = contents f ∧
               (f_closed f = false → f_disk f' = contents f) ∧
               file_close io f' = (inr (), f')) fa fa').
    { destruct fa as [f|]; [|exists None; constructor].
      destruct (file_close_clean io f) as (f' & ? & ? & ? & ? & Hopen & ?);
        [by apply Ha|].
      exists (Some f'). constructor. split_and!; try done.
      intros Hc. by apply Hopen. }
    assert (Hfb : ∃ fb', option_Forall2
      (λ f f', file_close io f = (inr (), f') ∧ f_name f' = f_name f ∧
               f_closed f' = true ∧ contents f' = contents f ∧
               (f_closed f = false → f_disk f' = contents f) ∧
               file_close io f' = (inr (), f')) fb fb').
    { destruct fb as [f|]; [|exists None; constructor].
      destruct (file_close_clean io f) as (f' & ? & ? & ? & ? & Hopen & ?);
        [by apply Hb|].
      exists (Some f'). constructor. split_and!; try done.
      intros Hc. by apply Hopen. }
    destruct Hfa as [fa' Hfa], Hfb as [fb' Hfb].
    exists (Sink fa' fb'). cbn [_anomalies _answers].
    destruct Hfa as [f f' (Hcl & Hn & Hc & Hco & Hd & Hid)|];
      destruct Hfb as [g g' (Hcl2 & Hn2 & Hc2 & Hco2 & Hd2 & Hid2)|];
      cbn [_anomalies _answers];
      rewrite ?Hcl; cbn [fst snd _anomalies _answers];
      rewrite ?Hcl2; cbn [fst snd _anomalies _answers];
      rewrite ?Hid; cbn [fst snd _anomalies _answers];
      rewrite ?Hid2; cbn [fst snd _anomalies _answers];
      (split_and!; [done|done|by constructor|by constructor|]);
      intros name [? [=]];
      unfold __call__, _handle_anomaly, on_anomalies, mbind, Py_bind;
      cbn [negb _anomalies _answers]; unfold file_write; by rewrite Hc.
  - intros f -> Hno. by rewrite (file_close_loss io f Hno).
  - intros f Ha -> Hno. destruct fa as [fa|].
    + destruct (file_close_clean io fa) as (f' & Hcl & ? & ? & ? & _);
        [by apply Ha|].
      exists (Some f'). rewrite Hcl. cbn [fst snd _anomalies _answers].
      rewrite (file_close_loss io f Hno). split; [done|]. by constructor.
    + exists None. cbn [fst snd _anomalies _answers].
      rewrite (file_close_loss io f Hno). split; [done|constructor].
Qed.

(** X7.  A sink whose constructor swallowed the failure of an [open] never
    records anything.  A confirmed record raises: [AttributeError] when the
    anomalies file could not be opened, [ValueError] when it was opened
    and closed again because the answers file could not be opened.  A
    refused record is dropped without any sign. *)
Theorem failed_sink_records_nothing (io : io_env) (anomalies_filename : string)
    (answers_filename : option string) :
  (can_open io anomalies_filename = false ∨
   ∃ name, answers_filename = Some name ∧ can_open io name = false) →
  ∃ self,
    __init__ io anomalies_filename answers_filename = inr self ∧
    _answers self = None ∧
    (∀ f, _anomalies self = Some f →
       f = opened_and_closed anomalies_filename) ∧
    ∀ name,
      __call__ io name true self =
        (inl (if can_open io anomalies_filename
              then ValueError else AttributeError), self) ∧
      __call__ io name false self = (inr (), self).
Proof.
  intros Hfail.
  unfold __init__, init_try, open_, set_anomalies, set_answers, if_answers,
    if_anomalies, on_answers, on_anomalies, _cleanup, mbind, mret, Py_bind,
    Py_ret, lift.
  destruct (can_open io anomalies_filename) eqn:Ha; cbn -[file_close].
  2: { eexists. split; [done|]. split_and!; [done|done|].
       intros name. by split. }
  destruct Hfail as [|(n & -> & Hn)]; [done|]. cbn -[file_close].
  rewrite Hn. cbn -[file_close]. rewrite close_fresh. cbn.
  eexists. split; [done|]. split_and!; [done|by intros f [= <-]|].
  intros name. by split.
Qed.

Lemma usable_written (io : io_env) (s : string) (f : file) :
  usable io f →
  usable io (written_and_flushed s f) ∧
  contents (written_and_flushed s f) = contents f +:+ s ∧
  f_buffer (written_and_flushed s f) = "" ∧
  f_name (written_and_flushed s f) = f_name f.
Proof.
  intros [Hc Hw]. unfold usable, contents, written_and_flushed. cbn.
  split_and!; try done. by rewrite string_app_nil_r, string_app_assoc.
Qed.

Lemma header_app_nonempty (s : string) : header +:+ s ≠ "".
Proof. done. Qed.

(** X17.  An answers file whose target can be opened but takes no data
    (and is no terminal).  The constructor returns with both files open,
    the header waiting in the buffer.  The first record sent to the sink
    raises [OSError] at the [flush] of the answers file, after the
    anomalies file has got its line when the decision is true; nothing ever
    reaches the answers file.  [__exit__] then closes the anomalies file
    with that line, raises [OSError] from the [close] of the answers file,
    and what was waiting there is lost. *)
Theorem unwritable_answers_fail_at_first_record (io : io_env)
    (anomalies_filename name : string) (id : N) (decision : bool) :
  can_open io anomalies_filename = true → can_open io name = true →
  can_write io anomalies_filename = true → can_write io name = false →
  line_buffered io name = false →
  let line := pretty id +:+ "," +:+ (if decision then "1" else "0") +:+ nl in
  let fresh := File anomalies_filename "" "" false [] in
  let anomalies :=
    if decision then written_and_flushed (pretty id +:+ nl) fresh else fresh in
  let waiting :=
    File name "" (header +:+ line) false [OpWrite header; OpWrite line; OpFlush] in
  __init__ io anomalies_filename (Some name) =
    inr (Sink (Some fresh) (Some (File name "" header false [OpWrite header]))) ∧
  __call__ io id decision
    (Sink (Some fresh) (Some (File name "" header false [OpWrite header]))) =
    (inl OSError, Sink (Some anomalies) (Some waiting)) ∧
  ∃ closed,
    __exit__ io (Sink (Some anomalies) (Some waiting)) =
      (inl OSError, Sink (Some closed) (Some (closed_with_loss waiting))) ∧
    f_closed closed = true ∧
    f_disk closed = (if decision then pretty id +:+ nl else "") ∧
    f_buffer closed = "" ∧
    f_disk (closed_with_loss waiting) = "" ∧
    f_buffer (closed_with_loss waiting) = "".
Proof.
  intros Ha Hb Hwa Hwb Hl line fresh anomalies waiting.
  assert (Hfresh : usable io fresh) by done.
  assert (Husable : usable io anomalies).
  { unfold anomalies. destruct decision; [|done].
    by destruct (usable_written io (pretty id +:+ nl) fresh). }
  split_and!.
  - unfold __init__, init_try, open_, set_anomalies, set_answers, if_answers,
      on_answers, mbind, mret, Py_bind, Py_ret, lift.
    rewrite Ha. cbn -[file_write]. rewrite Hb. cbn -[file_write].
    unfold file_write. cbn. by rewrite Hl.
  - assert (Hanswer : ∀ fa,
      _handle_answer io id decision
        (Sink fa (Some (File name "" header false [OpWrite header]))) =
        (inl OSError, Sink fa (Some waiting))).
    { intros fa. unfold _handle_answer, if_answers, on_answers, mbind, Py_bind.
      fold line. cbn -[file_write file_flush].
      unfold file_write. cbn -[file_flush]. rewrite Hl. cbn -[file_flush].
      unfold file_flush. cbn. rewrite Hwb. cbn.
      rewrite bool_decide_eq_false_2 by apply header_app_nonempty. done. }
    unfold __call__, _handle_anomaly, anomalies.
    destruct decision; cbn [negb]; [|apply Hanswer].
    destruct (write_ok io (pretty id +:+ nl) fresh) as (f' & Hf' & Hf); [done|].
    unfold on_anomalies, mbind, Py_bind. cbn [_answers _anomalies].
    rewrite Hf'. cbn [_answers _anomalies fst snd]. rewrite Hf. apply Hanswer.
  - destruct (file_close_clean io anomalies)
      as (closed & Hclose & _ & Hclosed & _ & Hflush & _).
    { right. left. by destruct Husable. }
    destruct (Hflush (proj1 Husable)) as [Hbuf Hdisk].
    exists closed. split_and!; try done.
    + unfold __exit__, _cleanup, if_anomalies, if_answers, on_anomalies,
        on_answers, mbind, mret, Py_bind, Py_ret.
      cbn [_anomalies _answers]. rewrite Hclose.
      cbn [fst snd _anomalies _answers].
      rewrite (file_close_loss io waiting); [done|].
      unfold closes_cleanly, waiting. cbn. rewrite Hwb.
      intros [|[|Hempty]]; [done|done|]. by apply header_app_nonempty in Hempty.
    + rewrite Hdisk. unfold anomalies, contents.
      destruct decision; cbn; by rewrite ?string_app_nil_r.
Qed.

End SinkLifecycle.

(** ** More on the engine *)

Section MoreEngineFacts.

Context {row score detector expert : Type}.
Context `{!AnomalyDetector row score detector, !Expert expert, !Argsort score}.

#[local] Abbreviation W := (@world row detector expert).

Ltac py_unfold :=
  unfold mbind, mret, Py_bind, Py_ret, lift, raise, getitem, call_score,
    call_observe, call_confirm, call_train, log in *.

Lemma consume_non_interactive_loop_any (rng : list nat) (oid : list N)
    (idx : list nat) (w : W) :
  ∃ recs o,
    consume (non_interactive_loop rng oid idx) w = (recs, o, w) ∧
    (o = Finished ∨ o = Raised IndexError) ∧
    Forall (λ r, r.2 = true) recs.
Proof.
  induction rng as [|i rng (recs & o & IH & Ho & Hrecs)].
  { exists [], Finished. by split_and!; [|left|]. }
  rewrite consume_unfold. cbn. py_unfold.
  destruct (idx !! i) as [a|]; cbn.
  2: { exists [], (Raised IndexError). by split_and!; [|right|]. }
  destruct (oid !! a) as [o'|]; cbn.
  2: { exists [], (Raised IndexError). by split_and!; [|right|]. }
  rewrite IH. exists ((o', true) :: recs), o. split_and!; [done|done|].
  by constructor.
Qed.

(** X8.  Whatever the matrix, the identifiers and the budget are, consuming
    the generator of non-interactive mode calls [score] once and makes no
    other call: the expert is not asked and the detector observes nothing.
    It ends normally or with an [IndexError], and every record it yields
    carries [True]. *)
Theorem non_interactive_only_scores (self : engine) (oid : list N)
    (feature : list row) (w : W) :
  ∃ recs o,
    consume (_run_non_interactive self oid feature) w =
      (recs, o,
       World (w_detector w) (w_expert w) (w_trace w ++ [EScore feature])) ∧
    (o = Finished ∨ o = Raised IndexError) ∧
    Forall (λ r, r.2 = true) recs.
Proof.
  set (w1 := World (w_detector w) (w_expert w) (w_trace w ++ [EScore feature])).
  destruct (consume_non_interactive_loop_any
    (range (Z.min (_budget self) (len feature))) oid
    (argsort (detector_score (w_detector w) feature)) w1)
    as (recs & o & Hc & Ho & Hrecs).
  exists recs, o. split_and!; [|done|done].
  rewrite consume_unfold. unfold _run_non_interactive.
  rewrite next_gen_body. py_unfold. fold w1.
  rewrite consume_unfold in Hc.
  destruct (next _ w1) as [[e|[[x g']|]] w2] eqn:Hn; cbn in *.
  - injection Hc as <- <- <-. destruct Ho as [|[= ->]]; done.
  - by destruct (consume g' w2) as [[xs o'] w3].
  - done.
Qed.

(** An iteration that does not complete raised [StopIteration] or
    [IndexError], after [score] and at most one [confirm]. *)
Lemma interactive_iteration_error (oid : list N) (feature : list row)
    (known : gmap nat Label) (w w' : W) (e : exn) :
  interactive_iteration oid feature known w = (inl e, w') →
  (e = StopIteration ∨ e = IndexError) ∧
  (w_trace w' = w_trace w ++ [EScore feature] ∨
   ∃ name, w_trace w' = w_trace w ++ [EScore feature; EConfirm name]).
Proof.
  unfold interactive_iteration, next_filter, _evaluate. py_unfold. cbn.
  destruct (filter _ _) as [|a0 rest]; cbn.
  { intros [= <- <-]. split; [by left|by left]. }
  destruct (oid !! a0) as [o|]; cbn.
  2: { intros [= <- <-]. split; [by right|by left]. }
  destruct (expert_confirm (w_expert w) o) as [result e']. cbn.
  destruct (feature !! a0) as [r|]; cbn; [done|].
  intros [= <- <-]. split; [by right|]. right. exists o. cbn.
  by rewrite <- app_assoc.
Qed.

Lemma interactive_steps_trace (rng : list nat) (oid : list N)
    (feature : list row) (known : gmap nat Label) (w : W) :
  let '(steps, o, w') := interactive_steps rng oid feature known w in
  (length steps ≤ length rng)%nat ∧
  ∃ tail,
    w_trace w' = w_trace w ++ concat (step_events feature <$> steps) ++ tail ∧
    match o with
    | Finished => tail = [] ∧ length steps = length rng
    | Raised e =>
        (e = RuntimeError ∨ e = IndexError) ∧
        (tail = [EScore feature] ∨
         ∃ name, tail = [EScore feature; EConfirm name])
    end.
Proof.
  revert known w. induction rng as [|i rng IH]; intros known w; cbn.
  { split; [done|]. exists []. by rewrite app_nil_r. }
  destruct (interactive_iteration oid feature known w)
    as [[e|[[rec a] known']] w1] eqn:Hit.
  - apply interactive_iteration_error in Hit as [He Htr]. cbn.
    split; [lia|]. destruct Htr as [Htr|[name Htr]].
    + exists [EScore feature]. split_and!; [done| |by left].
      destruct He as [-> | ->]; [by left|by right].
    + exists [EScore feature; EConfirm name]. split_and!; [done| |by eauto].
      destruct He as [-> | ->]; [by left|by right].
  - specialize (IH known' w1).
    destruct (interactive_steps rng oid feature known' w1) as [[steps o] w2].
    destruct IH as [Hlen (tail & Htr & Ho)]. cbn. split; [lia|].
    apply interactive_iteration_inv in Hit
      as (_ & _ & r & _ & _ & _ & _ & Hr & _ & Htr1).
    exists tail. split.
    + rewrite Htr, Htr1. unfold step_events. cbn. rewrite Hr. cbn.
      by rewrite <- !app_assoc.
    + destruct o; [|done]. destruct Ho as [-> ->]. done.
Qed.

(** X9.  In interactive mode the calls come in rounds: for every record
    yielded, [score], then [confirm] on the identifier of the record, then
    [observe] on the one row asked about, with the label of the answer,
    before the next [score].  There are at most [min(budget, N)] rounds; a
    run that ends normally made exactly that many, and a run that raises
    ([RuntimeError] or [IndexError]) stopped after a [score] and at most
    one more [confirm], with no [observe] for it. *)
Theorem interactive_rounds (self : engine) (oid : list N)
    (feature : list row) (known : gmap nat Label) (w : W) :
  let rng := range (Z.min (_budget self) (len feature)) in
  let '(steps, o, w') := interactive_steps rng oid feature known w in
  consume (_run_interactive self oid feature known) w = (steps.*1.*1, o, w') ∧
  (length steps ≤ Z.to_nat (Z.min (_budget self) (len feature)))%nat ∧
  ∃ tail,
    w_trace w' = w_trace w ++ concat (step_events feature <$> steps) ++ tail ∧
    match o with
    | Finished =>
        tail = [] ∧
        length steps = Z.to_nat (Z.min (_budget self) (len feature))
    | Raised e =>
        (e = RuntimeError ∨ e = IndexError) ∧
        (tail = [EScore feature] ∨
         ∃ name, tail = [EScore feature; EConfirm name])
    end.
Proof.
  intros rng.
  pose proof (interactive_steps_trace rng oid feature known w) as Htr.
  pose proof (consume_interactive_loop rng oid feature known w) as Hc.
  unfold rng in Hc at 1. rewrite <- consume_run_interactive in Hc.
  destruct (interactive_steps rng oid feature known w) as [[steps o] w'].
  unfold rng, range in Htr. rewrite length_seq in Htr.
  destruct Htr as [Hlen Htail]. by split_and!.
Qed.


End MoreEngineFacts.

(** ** main *)

Section MainFacts.

Context {row score detector expert : Type}.
Context `{!AnomalyDetector row score detector, !Expert expert, !Argsort score}.

Import ResultsSink.

#[local] Abbreviation W := (@world row detector expert).

Lemma record_each_unfold (io : io_env) (g : gen (N * bool)) (w : W)
    (sink : sink) :
  record_each io g w sink =
    match next g w with
    | (inl e, w') => (Raised e, w', sink)
    | (inr None, w') => (Finished, w', sink)
    | (inr (Some (rec, g')), w') =>
        match (__call__ io rec.1 rec.2 sink).1 with
        | inl e => (Raised e, w', (__call__ io rec.1 rec.2 sink).2)
        | inr _ => record_each io g' w' (__call__ io rec.1 rec.2 sink).2
        end
    end.
Proof. by destruct g. Qed.

(** One record on a sink whose files are open and can be written. *)
Lemma call_on_usable (io : io_env) (name : N) (decision : bool)
    (fa : file) (oa : option file) :
  usable io fa → (∀ f, oa = Some f → usable io f) →
  ∃ fa' oa',
    __call__ io name decision (Sink (Some fa) oa) =
      (inr (), Sink (Some fa') oa') ∧
    usable io fa' ∧ (∀ f, oa' = Some f → usable io f) ∧
    f_name fa' = f_name fa ∧
    contents fa' = contents fa +:+ anomaly_lines [(name, decision)] ∧
    option_Forall2
      (λ f f', contents f' = contents f +:+ answer_lines [(name, decision)] ∧
               f_buffer f' = "")
      oa oa'.
Proof.
  intros Ha Hb.
  set (line := pretty name +:+ "," +:+ (if decision then "1" else "0") +:+ nl).
  assert (Hanswer : ∀ fa0,
    _handle_answer io name decision (Sink fa0 oa) =
      (inr (), Sink fa0 (written_and_flushed line <$> oa))).
  { intros fa0. unfold _handle_answer, if_answers, on_answers. fold line.
    destruct oa as [f|]; [|done].
    destruct (write_ok io line f) as (f' & Hf' & Hf); [by apply Hb|].
    unfold mbind, Py_bind. cbn [_answers _anomalies fmap option_fmap option_map].
    rewrite Hf'. cbn [_answers _anomalies fst snd]. by rewrite Hf. }
  assert (Hlines : ∀ s, s +:+ "" = s) by apply string_app_nil_r.
  exists (if decision then written_and_flushed (pretty name +:+ nl) fa else fa),
    (written_and_flushed line <$> oa).
  split_and!.
  - unfold __call__, _handle_anomaly. destruct decision; cbn [negb].
    + destruct (write_ok io (pretty name +:+ nl) fa) as (f' & Hf' & Hf);
        [done|].
      unfold on_anomalies, mbind, Py_bind. cbn [_answers _anomalies].
      rewrite Hf'. cbn [_answers _anomalies fst snd]. rewrite Hf.
      apply Hanswer.
    + apply Hanswer.
  - destruct decision; [|done].
    by destruct (usable_written io (pretty name +:+ nl) fa Ha) as (? & _).
  - intros f Hf. destruct oa as [f0|]; [|done]. injection Hf as <-.
    destruct (usable_written io line f0) as (? & _); [by apply Hb|done].
  - by destruct decision.
  - cbn [anomaly_lines]. destruct decision.
    + rewrite Hlines.
      by destruct (usable_written io (pretty name +:+ nl) fa Ha) as (_ & ? & _).
    + by rewrite !Hlines.
  - destruct oa as [f0|]; constructor. cbn [answer_lines]. fold line.
    rewrite Hlines. destruct (usable_written io line f0) as (_ & ? & ? & _);
      [by apply Hb|done].
Qed.

Lemma consume_length_zero {A} (g : gen A) (w : W) :
  length (consume g w).1.1 = 0%nat →
  (∃ e w', next g w = (inl e, w') ∧ consume g w = ([], Raised e, w')) ∨
  (∃ w', next g w = (inr None, w') ∧ consume g w = ([], Finished, w')).
Proof.
  rewrite consume_unfold. destruct (next g w) as [[e|[[x g']|]] w'].
  - intros _. left. by eexists _, _.
  - by destruct (consume g' w') as [[xs o] w''].
  - intros _. right. by eexists.
Qed.

Lemma consume_length_succ {A} (g : gen A) (w : W) (n : nat) :
  length (consume g w).1.1 = S n →
  ∃ x g' w1,
    next g w = (inr (Some (x, g')), w1) ∧
    length (consume g' w1).1.1 = n ∧
    consume g w =
      (x :: (consume g' w1).1.1, (consume g' w1).1.2, (consume g' w1).2).
Proof.
  rewrite consume_unfold. destruct (next g w) as [[e|[[x g']|]] w'];
    [done| |done].
  destruct (consume g' w') as [[xs o] w''] eqn:Hc. cbn. intros [= Hn].
  exists x, g', w'. by rewrite Hc.
Qed.

Lemma record_each_usable (io : io_env) (n : nat) :
  ∀ (g : gen (N * bool)) (w : W) (fa : file) (oa : option file),
  length (consume g w).1.1 = n →
  usable io fa → (∀ f, oa = Some f → usable io f) →
  ∃ fa' oa',
    record_each io g w (Sink (Some fa) oa) =
      ((consume g w).1.2, (consume g w).2, Sink (Some fa') oa') ∧
    usable io fa' ∧ (∀ f, oa' = Some f → usable io f) ∧
    f_name fa' = f_name fa ∧
    contents fa' = contents fa +:+ anomaly_lines (consume g w).1.1 ∧
    option_Forall2
      (λ f f', contents f' = contents f +:+ answer_lines (consume g w).1.1)
      oa oa'.
Proof.
  induction n as [|n IH]; intros g w fa oa Hn Ha Hb.
  - exists fa, oa. rewrite record_each_unfold.
    destruct (consume_length_zero g w Hn)
      as [(e & w' & -> & ->)|(w' & -> & ->)]; cbn;
      (split_and!; [done|done|done|done|by rewrite string_app_nil_r|]);
      destruct oa; constructor; by rewrite string_app_nil_r.
  - destruct (consume_length_succ g w n Hn) as ([name d] & g' & w1 & Hnext & Hn' & ->).
    destruct (call_on_usable io name d fa oa Ha Hb)
      as (fa1 & oa1 & Hcall & Ha1 & Hb1 & Hna1 & Hca & Hcb).
    destruct (IH g' w1 fa1 oa1 Hn' Ha1 Hb1)
      as (fa2 & oa2 & Hrec & Ha2 & Hb2 & Hna2 & Hca2 & Hcb2).
    exists fa2, oa2. split_and!; try done; [| congruence | |].
    + rewrite record_each_unfold, Hnext. cbn [fst snd]. rewrite Hcall.
      cbn [fst snd]. apply Hrec.
    + cbn [fst snd]. rewrite Hca2, Hca. cbn [anomaly_lines].
      by rewrite string_app_nil_r, string_app_assoc.
    + cbn [fst snd].
      destruct Hcb as [f0 f1 [Hc1 _]|]; inversion Hcb2 as [? f2 Hc2|];
        subst; constructor.
      rewrite Hc2, Hc1. cbn [answer_lines].
      by rewrite string_app_nil_r, !string_app_assoc.
Qed.

(** X11.  The loop of [main] on a sink whose files are open and can be
    written passes every record to the sink until the generator ends or
    raises, and ends as the generator does.  The anomalies file then holds
    what it held before followed by one line for every confirmed record,
    in their order, and the answers file, when there is one, one line for
    every record. *)
Theorem loop_records_what_was_yielded (io : io_env) (g : gen (N * bool))
    (w : W) (anomalies : file) (answers : option file) :
  usable io anomalies → (∀ f, answers = Some f → usable io f) →
  let '(recs, o, w') := consume g w in
  ∃ anomalies' answers',
    record_each io g w (Sink (Some anomalies) answers) =
      (o, w', Sink (Some anomalies') answers') ∧
    contents anomalies' = contents anomalies +:+ anomaly_lines recs ∧
    option_Forall2
      (λ f f', contents f' = contents f +:+ answer_lines recs)
      answers answers' ∧
    usable io anomalies' ∧ (∀ f, answers' = Some f → usable io f).
Proof.
  intros Ha Hb.
  destruct (record_each_usable io (length (consume g w).1.1) g w
              anomalies answers eq_refl Ha Hb)
    as (fa' & oa' & Hrec & Ha' & Hb' & _ & Hca & Hcb).
  destruct (consume g w) as [[recs o] w']. cbn in *.
  by exists fa', oa'.
Qed.

(** Arguments that pass the checks are returned as they are; in
    non-interactive mode they name prior answers and no answers file. *)
Lemma parse_arguments_ok (a a' : args) :
  parse_arguments a = inr a' →
  a' = a ∧
  (arg_non_interactive a = true →
   arg_prior_answers a ≠ [] ∧ arg_answers a = None) ∧
  (arg_transform a = true → arg_feature_names a ≠ None).
Proof.
  unfold parse_arguments.
  destruct (arg_non_interactive a), (arg_transform a); cbn;
    repeat case_bool_decide; cbn; try done;
    intros [= <-]; split_and!; try done; intros _; split; try done;
    by destruct (arg_answers a); [exfalso; eauto|].
Qed.

(** X12.  [main] checks the arguments and reads all its inputs before it
    opens an output file or touches the detector.  Arguments that
    [parse_arguments] refuses end [main] with that error; whenever [main]
    ends without a sink (an input could not be read, or the constructor of
    the sink raised), the detector was not trained and the expert was not
    asked; and a sink is made only from arguments that passed the checks,
    which in non-interactive mode name prior answers and no answers file. *)
Theorem main_reads_before_it_writes (env : cli_env) (a : args) (w : W) :
  let '(e, w', sink) := main env a w in
  (∀ err, parse_arguments a = inl err → e = Some err ∧ sink = None) ∧
  (sink = None → w' = w ∧ is_Some e) ∧
  (is_Some sink →
   ∃ answers oids features,
     parse_arguments a = inr a ∧
     load_answers (env_read_csv env) (arg_prior_answers a) = inr answers ∧
     env_load_data env (arg_oid a) (arg_feature a) = inr (oids, features) ∧
     (arg_non_interactive a = true →
      arg_prior_answers a ≠ [] ∧ arg_answers a = None)).
Proof.
  unfold main.
  destruct (parse_arguments a) as [err|a'] eqn:Hparse.
  { split_and!; [by intros ? [= <-]|done|by intros [? [=]]]. }
  apply parse_arguments_ok in Hparse as Hok. destruct Hok as (-> & Hni & _).
  destruct (load_answers _ _) as [e1|answers] eqn:Hload.
  { split_and!; [done|done|by intros [? [=]]]. }
  destruct (env_load_data _ _ _) as [e2|[oids features]] eqn:Hdata.
  { split_and!; [done|done|by intros [? [=]]]. }
  destruct (transform_features _ _ _) as [e3|features'].
  { split_and!; [done|done|by intros [? [=]]]. }
  destruct (__init__ _ _ _) as [e4|sink].
  { split_and!; [done|done|by intros [? [=]]]. }
  destruct (run_and_record _ _ _ _ _ _ _ _) as [[e w'] sink'].
  split_and!; [done|done|]. intros _. by exists answers, oids, features.
Qed.


Lemma record_each_unopened (io : io_env) (n : nat) :
  ∀ (g : gen (N * bool)) (w : W),
  length (consume g w).1.1 = n →
  (record_each io g w (Sink None None)).2 = Sink None None ∧
  (Forall (λ r, r.2 = false) (consume g w).1.1 →
   (record_each io g w (Sink None None)).1 =
     ((consume g w).1.2, (consume g w).2)) ∧
  (Exists (λ r, r.2 = true) (consume g w).1.1 →
   (record_each io g w (Sink None None)).1.1 = Raised AttributeError).
Proof.
  induction n as [|n IH]; intros g w Hn.
  - rewrite record_each_unfold.
    destruct (consume_length_zero g w Hn)
      as [(e & w' & -> & ->)|(w' & -> & ->)]; cbn;
      (split_and!; [done|done|by intros ?%Exists_nil]).
  - destruct (consume_length_succ g w n Hn)
      as ([name d] & g' & w1 & Hnext & Hn' & ->).
    destruct (IH g' w1 Hn') as (IHs & IHf & IHe).
    rewrite record_each_unfold, Hnext. cbn [fst snd]. destruct d.
    + cbn. split_and!; [done| |done].
      by intros [[=] _]%Forall_cons.
    + change (__call__ io name false (Sink None None))
        with (inr () : exn + (), Sink None None).
      cbn [fst snd]. split_and!; [done| |].
      * intros [_ Hall]%Forall_cons. by rewrite IHf.
      * intros [[=]|Hex]%Exists_cons. by apply IHe.
Qed.

(** X15.  The loop of [main] on a sink whose anomalies file could not be
    opened writes nothing, ever.  Records that carry [False] are dropped
    and the loop goes on to the next question; the first record that
    carries [True] ends the loop with [AttributeError], after the
    generator has produced it. *)
Theorem loop_on_unopened_sink (io : io_env) (g : gen (N * bool)) (w : W) :
  let '(recs, o, w') := consume g w in
  let '(o2, w2, sink) := record_each io g w (Sink None None) in
  sink = Sink None None ∧
  (Forall (λ r, r.2 = false) recs → o2 = o ∧ w2 = w') ∧
  (Exists (λ r, r.2 = true) recs → o2 = Raised AttributeError).
Proof.
  destruct (record_each_unopened io (length (consume g w).1.1) g w eq_refl)
    as (Hs & Hf & He).
  destruct (consume g w) as [[recs o] w'].
  destruct (record_each io g w (Sink None None)) as [[o2 w2] sink].
  cbn in *. split_and!; [done| |done].
  intros Hall. by injection (Hf Hall) as -> ->.
Qed.

End MainFacts.

(** ** More scenarios *)

Section MoreScenarios.

Import Demo DemoCli ResultsSink.

(** X4 at work: the identifier 10 is answered twice in the first file, the
    identifier 20 in both files. *)
Lemma load_answers_last_row_wins_witness :
  ∃ answers,
    load_answers read_csv ["first.csv"; "second.csv"] = inr answers ∧
    (∀ k, answers !! k =
       last_answer
         (concat [[(10%N, true); (20%N, false); (10%N, false)];
                  [(20%N, true)]]) k) ∧
    (["first.csv"; "second.csv"] = [] → answers = ∅).
Proof.
  apply (load_answers_last_row_wins read_csv ["first.csv"; "second.csv"]
           [[(10%N, true); (20%N, false); (10%N, false)]; [(20%N, true)]]).
  constructor; [reflexivity|]. constructor; [reflexivity|]. constructor.
Defined.

(** X5 at work: the second of three files is missing. *)
Lemma load_answers_fails_fast_witness :
  load_answers read_csv (["first.csv"] ++ "missing.csv" :: ["second.csv"]) =
  inl OSError.
Proof.
  apply (load_answers_fails_fast read_csv ["first.csv"] ["second.csv"]
           "missing.csv" [[(10%N, true); (20%N, false); (10%N, false)]]
           OSError).
  - constructor; [reflexivity|]. constructor.
  - reflexivity.
Defined.

(** X7 at work: no file can be opened. *)
Lemma failed_sink_records_nothing_witness :
  ∃ self,
    __init__ io_closed "anomalies.txt" (Some "answers.csv") = inr self ∧
    _answers self = None ∧
    (∀ f, _anomalies self = Some f → f = opened_and_closed "anomalies.txt") ∧
    ∀ name,
      __call__ io_closed name true self =
        (inl (if can_open io_closed "anomalies.txt"
              then ValueError else AttributeError), self) ∧
      __call__ io_closed name false self = (inr (), self).
Proof.
  apply (failed_sink_records_nothing io_closed "anomalies.txt"
           (Some "answers.csv")).
  left. reflexivity.
Defined.


(** X11 at work: a non-interactive generator and a new anomalies file. *)
Lemma loop_records_what_was_yielded_witness :
  let g := _run_non_interactive (Argsort0 := argsort_row_order)
             (Engine 2 true) [10; 20; 30]%N [9; 1; 5] in
  let anomalies := File "anomalies.txt" "" "" false [] in
  let '(recs, o, w') := consume g (start []) in
  ∃ anomalies' answers',
    record_each io g (start []) (Sink (Some anomalies) None) =
      (o, w', Sink (Some anomalies') answers') ∧
    contents anomalies' = contents anomalies +:+ anomaly_lines recs ∧
    option_Forall2
      (λ f f', contents f' = contents f +:+ answer_lines recs)
      None answers' ∧
    usable io anomalies' ∧ (∀ f, answers' = Some f → usable io f).
Proof.
  intros g anomalies.
  apply (loop_records_what_was_yielded io g (start []) anomalies None).
  - split; reflexivity.
  - intros f [=].
Defined.


(** X17 at work: the answers go to [/dev/full], the expert confirms the
    identifier 20. *)
Lemma unwritable_answers_fail_at_first_record_witness :
  let fresh := File "anomalies.txt" "" "" false [] in
  let anomalies := written_and_flushed (pretty 20%N +:+ nl) fresh in
  let waiting :=
    File "/dev/full" "" (header +:+ pretty 20%N +:+ "," +:+ "1" +:+ nl) false
      [OpWrite header; OpWrite (pretty 20%N +:+ "," +:+ "1" +:+ nl); OpFlush] in
  __init__ io_full "anomalies.txt" (Some "/dev/full") =
    inr (Sink (Some fresh)
           (Some (File "/dev/full" "" header false [OpWrite header]))) ∧
  __call__ io_full 20 true
    (Sink (Some fresh)
       (Some (File "/dev/full" "" header false [OpWrite header]))) =
    (inl OSError, Sink (Some anomalies) (Some waiting)) ∧
  ∃ closed,
    __exit__ io_full (Sink (Some anomalies) (Some waiting)) =
      (inl OSError, Sink (Some closed) (Some (closed_with_loss waiting))) ∧
    f_closed closed = true ∧
    f_disk closed = pretty 20%N +:+ nl ∧
    f_buffer closed = "" ∧
    f_disk (closed_with_loss waiting) = "" ∧
    f_buffer (closed_with_loss waiting) = "".
Proof.
  exact (unwritable_answers_fail_at_first_record io_full "anomalies.txt"
           "/dev/full" 20 true eq_refl eq_refl eq_refl eq_refl eq_refl).
Defined.

(** The run of X14, computed: the prior answers name the rows 0 and 1,
    both are shown to the detector as anomalies, and the file holds the
    three identifiers in the order of their scores. *)
Example main_non_interactive_end_to_end :
  main (Argsort0 := argsort_row_order) env (arguments 40) (start []) =
    (None,
     World 2%nat []
       [ETrain [9; 1; 5]; EObserve [9; 1] [ANOMALY; ANOMALY];
        EScore [9; 1; 5]],
     Some (Sink
       (Some (File "anomalies.txt" ("20" +:+ nl +:+ "30" +:+ nl +:+ "10" +:+ nl)
                "" true
                [OpWrite ("20" +:+ nl); OpFlush; OpWrite ("30" +:+ nl); OpFlush;
                 OpWrite ("10" +:+ nl); OpFlush; OpClose]))
       None)).
Proof. vm_compute. reflexivity. Qed.

End MoreScenarios.
